(** * minitorch tensor engine: map, zip and reduce over strided storage

    A shallow embedding of [minitorch/tensor_ops.py]: the three low-level
    procedures [tensor_map], [tensor_zip] and [tensor_reduce], the
    [SimpleOps] wrappers that allocate their output, and the
    [TensorBackend] table binding them to scalar functions.

    Storage cells are IEEE binary64 numbers (NumPy float64), modelled by
    Rocq's primitive floats.  Storages are mutable and passed by reference,
    so they live in a heap addressed by locations.  Python exceptions are
    results of an error-and-state monad; the state outlives the exception,
    as it does in Python.

    Ordinals, positions, extents and strides are natural numbers.  The
    index buffers of the procedures are NumPy int32 arrays; every component
    written to them is below an extent of a shape, so naturals model them
    exactly as long as the extents fit in 32 bits. *)

From Stdlib Require Import ZArith Lia Floats.
From stdpp Require Import base option list.

Open Scope nat_scope.

(** ** Data model *)

(** A storage is a [list float]; shapes, strides and indices are
    [list nat]; a reference to a storage array is its location in the
    heap. *)
Definition loc := nat.

(** One element write [storage[pos] = value], as the engine performs it. *)
Record write := Write_ { w_loc : loc; w_pos : nat; w_val : float }.

(** The heap holds every storage array ever allocated, addressed by its
    position; [log] is a ghost trace of the element writes performed by the
    engine, oldest first. *)
Record state := State { heap : list (list float); log : list write }.

Inductive exn :=
  | IndexError
  | IndexingError
  | NotImplementedError.

Definition M (A : Type) : Type := state -> (exn + A) * state.

Definition ret {A} (x : A) : M A := fun s => (inr x, s).
Definition raise {A} (e : exn) : M A := fun s => (inl e, s).
Definition bind {A B} (m : M A) (k : A -> M B) : M B :=
  fun s => match m s with
           | (inr x, s') => k x s'
           | (inl e, s') => (inl e, s')
           end.

#[global] Instance M_ret : MRet M := @ret.
#[global] Instance M_bind : MBind M := fun A B k m => bind m k.

(** [for i in range(n): acc = body(i, acc)], the loop-carried variables
    being [acc]. *)
Fixpoint for_each {S} (l : list nat) (body : nat -> S -> M S) (acc : S) : M S :=
  match l with
  | [] => ret acc
  | i :: l' => acc' ← body i acc; for_each l' body acc'
  end.

Definition for_range {S} (n : nat) (body : nat -> S -> M S) (acc : S) : M S :=
  for_each (seq 0 n) body acc.

(** [x = storage[pos]]; NumPy raises IndexError past the end.  A location
    outside the heap has no Python counterpart; the model raises there
    too. *)
Definition load (l : loc) (pos : nat) : M float :=
  fun s => match heap s !! l with
           | Some arr => match arr !! pos with
                         | Some x => (inr x, s)
                         | None => (inl IndexError, s)
                         end
           | None => (inl IndexError, s)
           end.

(** [storage[pos] = v]. *)
Definition store (l : loc) (pos : nat) (v : float) : M unit :=
  fun s => match heap s !! l with
           | Some arr =>
               if decide (pos < length arr)
               then (inr tt, State (<[l := <[pos := v]> arr]> (heap s))
                                   (log s ++ [Write_ l pos v]))
               else (inl IndexError, s)
           | None => (inl IndexError, s)
           end.

(** [len(storage)]. *)
Definition len (l : loc) : M nat :=
  fun s => match heap s !! l with
           | Some arr => (inr (length arr), s)
           | None => (inl IndexError, s)
           end.

(** A fresh array; its location is the next free slot of the heap. *)
Definition alloc (arr : list float) : M loc :=
  fun s => (inr (length (heap s)), State (heap s ++ [arr]) (log s)).

(** [storage[:] = v], the slice assignment of [SimpleOps.reduce]. *)
Definition fill (l : loc) (v : float) : M unit :=
  fun s => match heap s !! l with
           | Some arr => (inr tt, State (<[l := replicate (length arr) v]> (heap s)) (log s))
           | None => (inl IndexError, s)
           end.

(** Python sequence indexing with an integer that may be negative. *)
Definition py_index (n : nat) (i : Z) : option nat :=
  if decide (0 <= i < Z.of_nat n)%Z then Some (Z.to_nat i)
  else if decide (- Z.of_nat n <= i < 0)%Z then Some (Z.to_nat (i + Z.of_nat n))
  else None.

Definition py_get {A} (l : list A) (i : Z) : M A :=
  match py_index (length l) i with
  | Some k => match l !! k with Some x => ret x | None => raise IndexError end
  | None => raise IndexError
  end.

Definition py_set {A} (l : list A) (i : Z) (x : A) : M (list A) :=
  match py_index (length l) i with
  | Some k => ret (<[k := x]> l)
  | None => raise IndexError
  end.

(** ** operators and tensor_data: the helpers [tensor_ops.py] imports *)

(** Modelled from the spec: [operators.prod], which is not under src/;
    the product of the entries of a shape. *)
Fixpoint prod (ls : list nat) : nat :=
  match ls with
  | [] => 1
  | x :: rest => x * prod rest
  end.

(** Writing [src] over the front of an index buffer, in place: the buffer
    keeps its length. *)
Definition blit (src buf : list nat) : list nat :=
  take (length buf) src ++ drop (length src) buf.

(** The loop of [to_index], last dimension first: the running quotient and
    the components found so far. *)
Fixpoint to_index_aux (ordinal : nat) (shape : list nat) : nat * list nat :=
  match shape with
  | [] => (ordinal, [])
  | sh :: rest =>
      let r := to_index_aux ordinal rest in
      (fst r / sh, fst r `mod` sh :: snd r)
  end.

(** Modelled from the spec: [tensor_data.to_index], which is not under
    src/; converts an ordinal to the index that visits the shape in
    row-major, last-dimension-fastest order, written into [out_index].  The
    ordinal is not range-checked. *)
Definition to_index (ordinal : nat) (shape : list nat) (out_index : list nat) : list nat :=
  blit (snd (to_index_aux ordinal shape)) out_index.

(** Modelled from the spec: [tensor_data.index_to_position], which is not
    under src/; the dot product of index and strides, over the entries both
    have. *)
Fixpoint index_to_position (index strides : list nat) : nat :=
  match index, strides with
  | i :: index', s :: strides' => i * s + index_to_position index' strides'
  | _, _ => 0
  end.

(** Modelled from the spec: [tensor_data.broadcast_index], which is not
    under src/; trailing alignment, component 0 where the small shape has
    extent 1 and the aligned component of [big_index] elsewhere, written
    into [out_index]. *)
Definition broadcast_index (big_index big_shape shape out_index : list nat) : list nat :=
  let off := length big_shape - length shape in
  blit (imap (fun i s => if decide (s = 1) then 0 else default 0 (big_index !! (i + off))) shape)
       out_index.

(** Modelled from the spec: the canonical row-major strides of a shape
    ([strides_from_shape] of tensor_data, not under src/). *)
Fixpoint strides_from_shape (shape : list nat) : list nat :=
  match shape with
  | [] => []
  | _ :: rest => prod rest :: strides_from_shape rest
  end.

(** The broadcast of two shapes, innermost dimension first. *)
Fixpoint broadcast_rev (a b : list nat) : option (list nat) :=
  match a, b with
  | [], _ => Some b
  | _, [] => Some a
  | x :: a', y :: b' =>
      if decide (x = y \/ x = 1 \/ y = 1)
      then cons (Nat.max x y) <$> broadcast_rev a' b'
      else None
  end.

(** Modelled from the spec: [tensor_data.shape_broadcast], which is not
    under src/; aligning from the trailing dimension, sizes must be equal
    or one of them 1, the result takes the larger; a shape-mismatch
    condition otherwise. *)
Definition shape_broadcast (a b : list nat) : M (list nat) :=
  match broadcast_rev (reverse a) (reverse b) with
  | Some c => ret (reverse c)
  | None => raise IndexingError
  end.

(** An index lies inside a shape. *)
Definition valid_index (index shape : list nat) : Prop := Forall2 lt index shape.

(** [small] broadcasts to [big]: trailing alignment, every extent of
    [small] is 1 or the aligned extent of [big]. *)
Definition broadcasts_to (small big : list nat) : Prop :=
  length small <= length big /\
  forall i s, small !! i = Some s ->
    s = 1 \/ big !! (i + (length big - length small)) = Some s.

(** Every index of the shape addresses a cell of an array of [n] cells. *)
Definition in_bounds (shape strides : list nat) (n : nat) : Prop :=
  forall index, valid_index index shape -> index_to_position index strides < n.

(** Modelled from the spec: the tensor object of [minitorch/tensor.py],
    which is not under src/; it exposes its storage (by reference), its
    shape and its strides, and [tuple] returns the three. *)
Record Tensor := { storage : loc; shape : list nat; strides : list nat }.

(** Modelled from the spec: [Tensor.zeros], which is not under src/; a new
    zero-filled tensor of the given shape, laid out row-major. *)
Definition zeros (sh : list nat) : M Tensor :=
  l ← alloc (replicate (prod sh) 0%float);
  mret {| storage := l; shape := sh; strides := strides_from_shape sh |}.

(** A cell of a float64 array assigned Python's [None] holds NaN. *)
Definition None_as_float64 : float := nan.

(** Reading and writing one entry of an index buffer or a shape inside a
    [range] loop. *)
Definition get_item (l : list nat) (i : nat) : M nat :=
  match l !! i with Some x => mret x | None => raise IndexError end.

Definition set_item (l : list nat) (i : nat) (x : nat) : M (list nat) :=
  if decide (i < length l) then mret (<[i := x]> l) else raise IndexError.

(** ** The low-level procedures of [tensor_ops.py] *)

(** [tensor_map(fn)]: the procedure [_map]. *)
Definition tensor_map (fn : float -> float)
    (out : loc) (out_shape out_strides : list nat)
    (in_storage : loc) (in_shape in_strides : list nat) : M unit :=
  let out_index := replicate (length out_shape) 0 in
  let in_index := replicate (length in_shape) 0 in
  _ ← for_range (prod out_shape) (fun i '(out_index, in_index) =>
        let out_index := to_index i out_shape out_index in
        let in_index := broadcast_index out_index out_shape in_shape in_index in
        let out_pos := index_to_position out_index out_strides in
        let in_pos := index_to_position in_index in_strides in
        x ← load in_storage in_pos;
        _ ← store out out_pos (fn x);
        mret (out_index, in_index))
      (out_index, in_index);
  mret tt.

(** The branch of [_zip] taken when the three shapes are equal. *)
Definition tensor_zip_fast (fn : float -> float -> float)
    (out : loc) (out_shape out_strides : list nat)
    (a_storage : loc) (a_strides : list nat)
    (b_storage : loc) (b_strides : list nat) : M unit :=
  for_range (prod out_shape) (fun ordinal _ =>
    let out_index := replicate (length out_shape) 0 in
    let out_index := to_index ordinal out_shape out_index in
    let out_pos := index_to_position out_index out_strides in
    let a_pos := index_to_position out_index a_strides in
    let b_pos := index_to_position out_index b_strides in
    x ← load a_storage a_pos;
    y ← load b_storage b_pos;
    store out out_pos (fn x y))
  tt.

(** [for i in range(len(shape)): index[i] = 0 if shape[i] == 1 else out_index[i]] *)
Definition zip_index (sh out_index index : list nat) : M (list nat) :=
  for_range (length sh) (fun i index =>
    s ← get_item sh i;
    if decide (s = 1) then set_item index i 0
    else (v ← get_item out_index i; set_item index i v))
  index.

(** The other branch of [_zip]. *)
Definition tensor_zip_general (fn : float -> float -> float)
    (out : loc) (out_shape out_strides : list nat)
    (a_storage : loc) (a_shape a_strides : list nat)
    (b_storage : loc) (b_shape b_strides : list nat) : M unit :=
  let out_index := replicate (length out_shape) 0 in
  let a_index := replicate (length a_shape) 0 in
  let b_index := replicate (length b_shape) 0 in
  _ ← for_range (prod out_shape) (fun ordinal '(out_index, a_index, b_index) =>
        let out_index := to_index ordinal out_shape out_index in
        a_index ← zip_index a_shape out_index a_index;
        b_index ← zip_index b_shape out_index b_index;
        let out_pos := index_to_position out_index out_strides in
        let a_pos := index_to_position a_index a_strides in
        let b_pos := index_to_position b_index b_strides in
        x ← load a_storage a_pos;
        y ← load b_storage b_pos;
        _ ← store out out_pos (fn x y);
        mret (out_index, a_index, b_index))
      (out_index, a_index, b_index);
  mret tt.

(** [tensor_zip(fn)]: the procedure [_zip]. *)
Definition tensor_zip (fn : float -> float -> float)
    (out : loc) (out_shape out_strides : list nat)
    (a_storage : loc) (a_shape a_strides : list nat)
    (b_storage : loc) (b_shape b_strides : list nat) : M unit :=
  if bool_decide (a_shape = b_shape) && bool_decide (a_shape = out_shape)
     && bool_decide (b_shape = out_shape)
  then tensor_zip_fast fn out out_shape out_strides a_storage a_strides b_storage b_strides
  else tensor_zip_general fn out out_shape out_strides
         a_storage a_shape a_strides b_storage b_shape b_strides.

(** The inner loop of [_reduce]: [res] starts as [None], takes the first
    element read and is combined with each later one. *)
Definition reduce_fold (fn : float -> float -> float) (out_index : list nat)
    (a_storage : loc) (a_strides : list nat) (reduce_dim : Z) (dim_size : nat)
    : M (option float) :=
  for_range dim_size (fun reduce_pos res =>
    let a_index := out_index in
    a_index ← py_set a_index reduce_dim reduce_pos;
    let a_storage_pos := index_to_position a_index a_strides in
    x ← load a_storage a_storage_pos;
    match res with
    | None => mret (Some x)
    | Some r => mret (Some (fn r x))
    end)
  None.

(** [tensor_reduce(fn)]: the procedure [_reduce]. *)
Definition tensor_reduce (fn : float -> float -> float)
    (out : loc) (out_shape out_strides : list nat)
    (a_storage : loc) (a_shape a_strides : list nat) (reduce_dim : Z) : M unit :=
  dim_size ← py_get a_shape reduce_dim;
  let out_index := replicate (length out_shape) 0 in
  n ← len out;
  _ ← for_range n (fun out_pos out_index =>
        let out_index := to_index out_pos out_shape out_index in
        let out_storage_pos := index_to_position out_index out_strides in
        res ← reduce_fold fn out_index a_storage a_strides reduce_dim dim_size;
        _ ← store out out_storage_pos (default None_as_float64 res);
        mret out_index)
      out_index;
  mret tt.

(** ** The operation classes *)

Module TensorOps.

(** What a [TensorOps] class provides to [TensorBackend]. *)
Record t := {
  map : (float -> float) -> Tensor -> option Tensor -> M Tensor;
  zip : (float -> float -> float) -> Tensor -> Tensor -> M Tensor;
  reduce : (float -> float -> float) -> float -> Tensor -> Z -> M Tensor;
  matrix_multiply : Tensor -> Tensor -> M Tensor;
  cuda : bool
}.

End TensorOps.

(** [TensorOps.matrix_multiply] of the base class. *)
Definition TensorOps_matrix_multiply (a b : Tensor) : M Tensor :=
  raise NotImplementedError.

Module SimpleOps.

Definition map (fn : float -> float) (a : Tensor) (out : option Tensor) : M Tensor :=
  out ← match out with
        | None => zeros (shape a)
        | Some o => mret o
        end;
  _ ← tensor_map fn (storage out) (shape out) (strides out)
                    (storage a) (shape a) (strides a);
  mret out.

Definition zip (fn : float -> float -> float) (a b : Tensor) : M Tensor :=
  c_shape ← (if bool_decide (shape a ≠ shape b)
             then shape_broadcast (shape a) (shape b)
             else mret (shape a));
  out ← zeros c_shape;
  _ ← tensor_zip fn (storage out) (shape out) (strides out)
                    (storage a) (shape a) (strides a)
                    (storage b) (shape b) (strides b);
  mret out.

Definition reduce (fn : float -> float -> float) (start : float)
    (a : Tensor) (dim : Z) : M Tensor :=
  out_shape ← py_set (shape a) dim 1;
  out ← zeros out_shape;
  _ ← fill (storage out) start;
  _ ← tensor_reduce fn (storage out) (shape out) (strides out)
                       (storage a) (shape a) (strides a) dim;
  mret out.

Definition matrix_multiply (a b : Tensor) : M Tensor :=
  raise NotImplementedError.

Definition is_cuda : bool := false.

(** The class itself; [cuda] is inherited from [TensorOps]. *)
Definition ops : TensorOps.t :=
  {| TensorOps.map := map;
     TensorOps.zip := zip;
     TensorOps.reduce := reduce;
     TensorOps.matrix_multiply := matrix_multiply;
     TensorOps.cuda := false |}.

End SimpleOps.

(** Modelled from the spec: the scalar functions of [minitorch/operators.py],
    which is not under src/.  Negation, identity, addition and
    multiplication are the float operations; the spec names the others
    without defining them, so they are parameters of the backend. *)
Module operators.

Definition neg (x : float) : float := (- x)%float.
Definition id (x : float) : float := x.
Definition add (x y : float) : float := (x + y)%float.
Definition mul (x y : float) : float := (x * y)%float.

Record others := {
  sigmoid : float -> float;
  relu : float -> float;
  log : float -> float;
  exp : float -> float;
  inv : float -> float;
  lt : float -> float -> float;
  eq : float -> float -> float;
  is_close : float -> float -> float;
  relu_back : float -> float -> float;
  log_back : float -> float -> float;
  inv_back : float -> float -> float
}.

End operators.

Module TensorBackend.

Record t := {
  neg_map : Tensor -> option Tensor -> M Tensor;
  sigmoid_map : Tensor -> option Tensor -> M Tensor;
  relu_map : Tensor -> option Tensor -> M Tensor;
  log_map : Tensor -> option Tensor -> M Tensor;
  exp_map : Tensor -> option Tensor -> M Tensor;
  id_map : Tensor -> option Tensor -> M Tensor;
  inv_map : Tensor -> option Tensor -> M Tensor;
  add_zip : Tensor -> Tensor -> M Tensor;
  mul_zip : Tensor -> Tensor -> M Tensor;
  lt_zip : Tensor -> Tensor -> M Tensor;
  eq_zip : Tensor -> Tensor -> M Tensor;
  is_close_zip : Tensor -> Tensor -> M Tensor;
  relu_back_zip : Tensor -> Tensor -> M Tensor;
  log_back_zip : Tensor -> Tensor -> M Tensor;
  inv_back_zip : Tensor -> Tensor -> M Tensor;
  add_reduce : Tensor -> Z -> M Tensor;
  mul_reduce : Tensor -> Z -> M Tensor;
  matrix_multiply : Tensor -> Tensor -> M Tensor;
  cuda : bool
}.

(** [TensorBackend.__init__]. *)
Definition init (o : operators.others) (ops : TensorOps.t) : t :=
  {| neg_map := TensorOps.map ops operators.neg;
     sigmoid_map := TensorOps.map ops (operators.sigmoid o);
     relu_map := TensorOps.map ops (operators.relu o);
     log_map := TensorOps.map ops (operators.log o);
     exp_map := TensorOps.map ops (operators.exp o);
     id_map := TensorOps.map ops operators.id;
     inv_map := TensorOps.map ops (operators.inv o);
     add_zip := TensorOps.zip ops operators.add;
     mul_zip := TensorOps.zip ops operators.mul;
     lt_zip := TensorOps.zip ops (operators.lt o);
     eq_zip := TensorOps.zip ops (operators.eq o);
     is_close_zip := TensorOps.zip ops (operators.is_close o);
     relu_back_zip := TensorOps.zip ops (operators.relu_back o);
     log_back_zip := TensorOps.zip ops (operators.log_back o);
     inv_back_zip := TensorOps.zip ops (operators.inv_back o);
     add_reduce := TensorOps.reduce ops operators.add 0%float;
     mul_reduce := TensorOps.reduce ops operators.mul 1%float;
     matrix_multiply := TensorOps.matrix_multiply ops;
     cuda := TensorOps.cuda ops |}.

End TensorBackend.

Definition SimpleBackend (o : operators.others) : TensorBackend.t :=
  TensorBackend.init o SimpleOps.ops.

(** * Specification vocabulary *)

(** The index of an ordinal and the broadcast of an index, as values: the
    helpers run on a fresh zero buffer of the right length. *)
Definition index_of (ordinal : nat) (sh : list nat) : list nat :=
  to_index ordinal sh (replicate (length sh) 0).

(** [broadcast_index(big_index, big_shape, shape)] as a value. *)
Definition bcast_of (big_index big_shape sh : list nat) : list nat :=
  broadcast_index big_index big_shape sh (replicate (length sh) 0).

(** Total lookup [arr !!! pos] in a storage; it is only used at positions
    shown to be inside the array. *)
#[global] Instance float_inhabited : Inhabited float := populate 0%float.

(** Unfolds the monad operations. *)
Ltac munfold := unfold mbind, M_bind, mret, M_ret, bind, ret, raise in *.

(** The array after the writes [arr[p i] = v i], for [i] along [l]. *)
Definition apply_writes (p : nat -> nat) (v : nat -> float)
    (arr : list float) (l : list nat) : list float :=
  foldl (fun a i => <[p i := v i]> a) arr l.

(** The trace of those writes. *)
Definition writes_of (out : loc) (p : nat -> nat) (v : nat -> float)
    (l : list nat) : list write :=
  (fun i => Write_ out (p i) (v i)) <$> l.

(** Every array but [out] is as it is in [h0]. *)
Definition frame (out : loc) (h0 : list (list float)) (s : state) : Prop :=
  length (heap s) = length h0 /\ forall l, l ≠ out -> heap s !! l = h0 !! l.

(** One iteration of a storing loop: from any loop state satisfying [P],
    with the other arrays untouched so far, iteration [i] stores [v i] at
    [p i]. *)
Definition stores_at {S : Type} (body : nat -> S -> M S)
    (out : loc) (h0 : list (list float)) (n : nat)
    (P : S -> Prop) (p : nat -> nat) (v : nat -> float) (i : nat) : Prop :=
  forall acc s arr,
    P acc -> frame out h0 s -> heap s !! out = Some arr -> length arr = n ->
    exists acc', P acc' /\
      body i acc s
      = (inr acc', State (<[out := <[p i := v i]> arr]> (heap s))
                         (log s ++ [Write_ out (p i) (v i)])).

(** The storage positions [_map] computes at an ordinal. *)
Definition out_position (out_shape out_strides : list nat) (i : nat) : nat :=
  index_to_position (index_of i out_shape) out_strides.

(** The position it reads in an operand of shape [in_shape]. *)
Definition in_position (out_shape in_shape in_strides : list nat) (i : nat) : nat :=
  index_to_position (bcast_of (index_of i out_shape) out_shape in_shape) in_strides.

(** The body of the loop of [_map], as [tensor_map] runs it. *)
Definition map_body (fn : float -> float)
    (out : loc) (out_shape out_strides : list nat)
    (in_storage : loc) (in_shape in_strides : list nat)
    (i : nat) (acc : list nat * list nat) : M (list nat * list nat) :=
  let '(out_index, in_index) := acc in
  let out_index := to_index i out_shape out_index in
  let in_index := broadcast_index out_index out_shape in_shape in_index in
  let out_pos := index_to_position out_index out_strides in
  let in_pos := index_to_position in_index in_strides in
  x ← load in_storage in_pos;
  _ ← store out out_pos (fn x);
  mret (out_index, in_index).

(** The two index buffers of [_map] keep the rank of their shapes. *)
Definition map_buffers (out_shape in_shape : list nat) (acc : list nat * list nat) : Prop :=
  length (fst acc) = length out_shape /\ length (snd acc) = length in_shape.

(** What [_reduce] leaves in an output cell from the elements read along
    the reduced dimension, in the order read: the first element combined
    with each later one from the left, and [None] when there is none. *)
Definition reduce_value (fn : float -> float -> float) (elems : list float) : float :=
  match elems with
  | [] => None_as_float64
  | x :: xs => foldl fn x xs
  end.

(** One step of the inner loop on the accumulator [res]. *)
Definition reduce_step (fn : float -> float -> float)
    (res : option float) (x : float) : option float :=
  match res with
  | None => Some x
  | Some r => Some (fn r x)
  end.

(** The elements of [a] read for the output index [out_index], at
    [reduce_pos = 0, 1, ..., dim_size - 1]. *)
Definition reduce_elems (av : list float) (a_strides : list nat) (d dim_size : nat)
    (out_index : list nat) : list float :=
  (fun k => av !!! index_to_position (<[d := k]> out_index) a_strides) <$> seq 0 dim_size.

(** The body of the outer loop of [_reduce], as [tensor_reduce] runs it. *)
Definition reduce_body (fn : float -> float -> float)
    (out : loc) (out_shape out_strides : list nat)
    (a_storage : loc) (a_strides : list nat) (reduce_dim : Z) (dim_size : nat)
    (out_pos : nat) (out_index : list nat) : M (list nat) :=
  let out_index := to_index out_pos out_shape out_index in
  let out_storage_pos := index_to_position out_index out_strides in
  res ← reduce_fold fn out_index a_storage a_strides reduce_dim dim_size;
  _ ← store out out_storage_pos (default None_as_float64 res);
  mret out_index.

(** A tensor whose storage is the array [av] of the heap and whose layout
    stays inside it. *)
Definition tensor_in (s : state) (a : Tensor) (av : list float) : Prop :=
  heap s !! storage a = Some av /\ in_bounds (shape a) (strides a) (length av).

(** The cell of a tensor at an index of its shape. *)
Definition cell (av : list float) (a : Tensor) (index : list nat) : float :=
  av !!! index_to_position index (strides a).

(** The result of a computation that can only raise IndexError. *)
Definition outcome {A} (r : option A) : exn + A :=
  match r with
  | Some x => inr x
  | None => inl IndexError
  end.

(** A computation that only returns [r] or raises IndexError, whatever
    the state, and leaves the state alone. *)
Definition pure_with {A} (m : M A) (r : option A) : Prop :=
  forall s, m s = (outcome r, s).

(** What a load finds in the state. *)
Definition peek (s : state) (l : loc) (pos : nat) : option float :=
  match heap s !! l with
  | Some arr => arr !! pos
  | None => None
  end.

(** Two outcomes with the same state and the same exception, or results
    related by [R]. *)
Definition related {S1 S2} (R : S1 -> S2 -> Prop)
    (r1 : (exn + S1) * state) (r2 : (exn + S2) * state) : Prop :=
  snd r1 = snd r2 /\
  match fst r1, fst r2 with
  | inr x, inr y => R x y
  | inl e, inl e' => e = e'
  | _, _ => False
  end.

(** The loop bodies of the two branches of [_zip], as [tensor_zip_fast]
    and [tensor_zip_general] run them. *)
Definition zip_fast_body (fn : float -> float -> float)
    (out : loc) (out_shape out_strides : list nat)
    (a_storage : loc) (a_strides : list nat)
    (b_storage : loc) (b_strides : list nat)
    (ordinal : nat) (_ : unit) : M unit :=
  let out_index := replicate (length out_shape) 0 in
  let out_index := to_index ordinal out_shape out_index in
  let out_pos := index_to_position out_index out_strides in
  let a_pos := index_to_position out_index a_strides in
  let b_pos := index_to_position out_index b_strides in
  x ← load a_storage a_pos;
  y ← load b_storage b_pos;
  store out out_pos (fn x y).

Definition zip_general_body (fn : float -> float -> float)
    (out : loc) (out_shape out_strides : list nat)
    (a_storage : loc) (a_shape a_strides : list nat)
    (b_storage : loc) (b_shape b_strides : list nat)
    (ordinal : nat) (acc : list nat * list nat * list nat)
    : M (list nat * list nat * list nat) :=
  let '(out_index, a_index, b_index) := acc in
  let out_index := to_index ordinal out_shape out_index in
  a_index ← zip_index a_shape out_index a_index;
  b_index ← zip_index b_shape out_index b_index;
  let out_pos := index_to_position out_index out_strides in
  let a_pos := index_to_position a_index a_strides in
  let b_pos := index_to_position b_index b_strides in
  x ← load a_storage a_pos;
  y ← load b_storage b_pos;
  _ ← store out out_pos (fn x y);
  mret (out_index, a_index, b_index).

(** The loop variables of the general branch, with the roles of the two
    operand buffers exchanged. *)
Definition swapped (acc1 acc2 : list nat * list nat * list nat) : Prop :=
  let '(oi1, ai1, bi1) := acc1 in
  let '(oi2, bi2, ai2) := acc2 in
  oi1 = oi2 /\ ai1 = ai2 /\ bi1 = bi2.

(** The three index buffers of the general branch keep the rank of their
    shapes. *)
Definition general_buffers (out_shape a_shape b_shape : list nat)
    (acc : list nat * list nat * list nat) : Prop :=
  let '(oi, ai, bi) := acc in
  length oi = length out_shape /\ length ai = length a_shape /\ length bi = length b_shape.

(** A call of one of the three low-level procedures with its arguments. *)
Inductive invocation :=
  | Map (fn : float -> float)
        (out : loc) (out_shape out_strides : list nat)
        (in_storage : loc) (in_shape in_strides : list nat)
  | Zip (fn : float -> float -> float)
        (out : loc) (out_shape out_strides : list nat)
        (a_storage : loc) (a_shape a_strides : list nat)
        (b_storage : loc) (b_shape b_strides : list nat)
  | Reduce (fn : float -> float -> float)
        (out : loc) (out_shape out_strides : list nat)
        (a_storage : loc) (a_shape a_strides : list nat) (reduce_dim : Z).

(** Running the call. *)
Definition invoke (c : invocation) : M unit :=
  match c with
  | Map fn out out_shape out_strides in_storage in_shape in_strides =>
      tensor_map fn out out_shape out_strides in_storage in_shape in_strides
  | Zip fn out out_shape out_strides a_storage a_shape a_strides
        b_storage b_shape b_strides =>
      tensor_zip fn out out_shape out_strides a_storage a_shape a_strides
        b_storage b_shape b_strides
  | Reduce fn out out_shape out_strides a_storage a_shape a_strides reduce_dim =>
      tensor_reduce fn out out_shape out_strides a_storage a_shape a_strides reduce_dim
  end.

(** The storage the call writes to. *)
Definition output_of (c : invocation) : loc :=
  match c with
  | Map _ out _ _ _ _ _ => out
  | Zip _ out _ _ _ _ _ _ _ _ => out
  | Reduce _ out _ _ _ _ _ _ => out
  end.

(** The layout addresses every cell of an array of [n] cells exactly once:
    the array has one cell per index and distinct indices have distinct
    positions inside it. *)
Definition exact_layout (sh st : list nat) (n : nat) : Prop :=
  n = prod sh /\
  in_bounds sh st n /\
  forall idx idx', valid_index idx sh -> valid_index idx' sh ->
    index_to_position idx st = index_to_position idx' st -> idx = idx'.

(** An input operand: an array of the heap other than the output, with a
    layout inside it. *)
Definition input_ok (s : state) (out l : loc) (sh st : list nat) : Prop :=
  out ≠ l /\ exists arr, heap s !! l = Some arr /\ in_bounds sh st (length arr).

(** The output: an array of the heap that the output layout addresses
    cell by cell. *)
Definition output_ok (s : state) (out : loc) (sh st : list nat) : Prop :=
  exists arr, heap s !! out = Some arr /\ exact_layout sh st (length arr).

(** The preconditions of the three procedures. *)
Definition valid_call (c : invocation) (s : state) : Prop :=
  match c with
  | Map _ out out_shape out_strides in_storage in_shape in_strides =>
      output_ok s out out_shape out_strides /\
      input_ok s out in_storage in_shape in_strides /\
      broadcasts_to in_shape out_shape
  | Zip _ out out_shape out_strides a_storage a_shape a_strides
        b_storage b_shape b_strides =>
      output_ok s out out_shape out_strides /\
      input_ok s out a_storage a_shape a_strides /\
      input_ok s out b_storage b_shape b_strides /\
      broadcasts_to a_shape out_shape /\ length a_shape = length out_shape /\
      broadcasts_to b_shape out_shape /\ length b_shape = length out_shape
  | Reduce _ out out_shape out_strides a_storage a_shape a_strides reduce_dim =>
      output_ok s out out_shape out_strides /\
      input_ok s out a_storage a_shape a_strides /\
      exists d, py_index (length a_shape) reduce_dim = Some d /\
                out_shape = <[d := 1]> a_shape
  end.

(** The element writes performed between [s] and [s'] all go to [out] and
    hit each of its [n] cells exactly once. *)
Definition writes_each_cell_once (out : loc) (n : nat) (s s' : state) : Prop :=
  exists ws, log s' = log s ++ ws /\
             Forall (fun w => w_loc w = out) ws /\
             w_pos <$> ws ≡ₚ seq 0 n.

(** No array but [out] differs between [s] and [s']. *)
Definition others_unchanged (out : loc) (s s' : state) : Prop :=
  length (heap s') = length (heap s) /\
  forall l, l ≠ out -> heap s' !! l = heap s !! l.

(** Between [s] and [s'] nothing was allocated, no array but [out] was
    changed, [out] kept its length and the element writes logged all went
    to [out]. *)
Definition only_writes (out : loc) (s s' : state) : Prop :=
  length (heap s') = length (heap s) /\
  (forall l, l ≠ out -> heap s' !! l = heap s !! l) /\
  length <$> heap s' !! out = length <$> heap s !! out /\
  exists ws, log s' = log s ++ ws /\ Forall (fun w => w_loc w = out) ws.

(** A computation that, from any state and whether it returns or raises,
    does no more than that. *)
Definition touches_only {A} (out : loc) (m : M A) : Prop :=
  forall s, only_writes out s (snd (m s)).

(** Every array of [s] is still there, unchanged, in [s']. *)
Definition keeps_heap (s s' : state) : Prop :=
  forall l, l < length (heap s) -> heap s' !! l = heap s !! l.

(** The operand index the general branch of [_zip] builds from
    [out_index]: component [i] of the operand index is component [i] of
    [out_index], or 0 where the operand has extent 1. *)
Definition lead_index (sh out_index : list nat) : list nat :=
  imap (fun i d => if decide (d = 1) then 0 else default 0 (out_index !! i)) sh.

(** The position [_zip] reads in an operand at an ordinal. *)
Definition lead_position (out_shape sh st : list nat) (i : nat) : nat :=
  index_to_position (lead_index sh (index_of i out_shape)) st.

(** * Index arithmetic *)

Section IndexArithmetic.

Implicit Types (sh idx buf : list nat) (o : nat).

Lemma blit_length src buf : length (blit src buf) = length buf.
Proof.
  unfold blit. rewrite length_app, length_take, length_drop. lia.
Qed.

Lemma blit_full src buf : length src = length buf -> blit src buf = src.
Proof.
  intros E. unfold blit.
  rewrite take_ge by lia. rewrite drop_ge by lia. apply app_nil_r.
Qed.

Lemma to_index_aux_length o sh : length (snd (to_index_aux o sh)) = length sh.
Proof. induction sh as [|d sh IH]; simpl; congruence. Qed.

Lemma to_index_length o sh buf : length (to_index o sh buf) = length buf.
Proof. apply blit_length. Qed.

(** [to_index] overwrites the whole buffer: what it held does not matter. *)
Lemma to_index_buffer o sh buf :
  length buf = length sh -> to_index o sh buf = index_of o sh.
Proof.
  intros E. unfold index_of, to_index.
  rewrite !blit_full; auto; rewrite to_index_aux_length, ?length_replicate; auto.
Qed.

Lemma index_of_length o sh : length (index_of o sh) = length sh.
Proof. unfold index_of. rewrite to_index_length. apply length_replicate. Qed.

Lemma index_of_aux o sh : index_of o sh = snd (to_index_aux o sh).
Proof.
  unfold index_of, to_index.
  apply blit_full. now rewrite to_index_aux_length, length_replicate.
Qed.

Lemma to_index_aux_quot o sh : fst (to_index_aux o sh) = o / prod sh.
Proof.
  induction sh as [|d sh IH]; cbn [to_index_aux prod fst].
  - now rewrite Nat.div_1_r.
  - rewrite IH, Nat.Div0.div_div. f_equal. lia.
Qed.

Lemma prod_pos sh o : o < prod sh -> Forall (fun d => 0 < d) sh.
Proof.
  intros H. assert (0 < prod sh) as Hp by lia. clear H.
  induction sh as [|d sh IH]; cbn [prod] in Hp; constructor.
  - destruct d; lia.
  - apply IH. destruct (prod sh); lia.
Qed.

(** Inside the shape, each component is below its extent. *)
Lemma index_of_valid o sh : o < prod sh -> valid_index (index_of o sh) sh.
Proof.
  intros H. apply prod_pos in H. rewrite index_of_aux. unfold valid_index.
  induction H as [|d sh Hd _ IH]; cbn [to_index_aux snd]; constructor; auto.
  apply Nat.mod_upper_bound. lia.
Qed.

(** The position of an index under row-major strides, plus what the
    quotient carries, is the ordinal. *)
Lemma to_index_aux_position o sh :
  index_to_position (snd (to_index_aux o sh)) (strides_from_shape sh)
    + fst (to_index_aux o sh) * prod sh = o.
Proof.
  induction sh as [|d sh IH];
    cbn [to_index_aux prod fst snd index_to_position strides_from_shape].
  - lia.
  - set (r := to_index_aux o sh) in *.
    pose proof (Nat.div_mod_eq (fst r) d). nia.
Qed.

(** Round trip through the canonical strides. *)
Lemma index_of_position o sh :
  o < prod sh -> index_to_position (index_of o sh) (strides_from_shape sh) = o.
Proof.
  intros H. pose proof (to_index_aux_position o sh) as E.
  rewrite to_index_aux_quot, Nat.div_small in E by done.
  rewrite index_of_aux. lia.
Qed.

Lemma position_bound idx sh :
  valid_index idx sh -> index_to_position idx (strides_from_shape sh) < prod sh.
Proof.
  unfold valid_index.
  induction 1 as [|i d idx sh Hi _ IH];
    cbn [prod index_to_position strides_from_shape]; [lia|].
  nia.
Qed.

Lemma to_index_aux_shift k p sh :
  Forall (fun d => 0 < d) sh ->
  to_index_aux (k * prod sh + p) sh
    = (k + fst (to_index_aux p sh), snd (to_index_aux p sh)).
Proof.
  intros H. revert k.
  induction H as [|d sh Hd _ IH]; intros k; cbn [to_index_aux prod fst snd].
  - f_equal. lia.
  - replace (k * (d * prod sh) + p) with (k * d * prod sh + p) by lia.
    rewrite IH. cbn [fst snd]. f_equal.
    + rewrite Nat.div_add_l by lia. done.
    + f_equal. rewrite Nat.add_comm. apply Nat.Div0.mod_add.
Qed.

(** Every index of the shape is the index of its row-major position. *)
Lemma index_of_position_inv idx sh :
  valid_index idx sh ->
  index_of (index_to_position idx (strides_from_shape sh)) sh = idx.
Proof.
  intros H. rewrite index_of_aux.
  enough (to_index_aux (index_to_position idx (strides_from_shape sh)) sh = (0, idx))
    as -> by done.
  induction H as [|i d idx sh Hi Hv IH];
    cbn [to_index_aux prod fst snd index_to_position strides_from_shape]; [done|].
  assert (Forall (fun d => 0 < d) sh) as Hpos.
  { eapply prod_pos, position_bound, Hv. }
  rewrite to_index_aux_shift, IH by done. cbn [fst snd].
  rewrite Nat.add_0_r, Nat.div_small, Nat.mod_small by done. done.
Qed.

Lemma broadcast_index_length bi big sh buf :
  length (broadcast_index bi big sh buf) = length buf.
Proof. apply blit_length. Qed.

Lemma broadcast_index_buffer bi big sh buf :
  length buf = length sh -> broadcast_index bi big sh buf = bcast_of bi big sh.
Proof.
  intros E. unfold bcast_of, broadcast_index.
  rewrite !blit_full; auto; rewrite length_imap, ?length_replicate; auto.
Qed.

Lemma bcast_of_imap bi big sh :
  bcast_of bi big sh
  = imap (fun i s => if decide (s = 1) then 0
                     else default 0 (bi !! (i + (length big - length sh)))) sh.
Proof.
  unfold bcast_of, broadcast_index. apply blit_full.
  now rewrite length_imap, length_replicate.
Qed.

(** The broadcast of an index of the big shape is an index of the small
    one. *)
Lemma bcast_of_valid bi big sh :
  broadcasts_to sh big -> valid_index bi big -> valid_index (bcast_of bi big sh) sh.
Proof.
  intros [Hlen Hb] Hv. rewrite bcast_of_imap.
  apply Forall2_same_length_lookup_2; [now rewrite length_imap|].
  intros i x d Hx Hd. rewrite list_lookup_imap, Hd in Hx. simpl in Hx.
  injection Hx as <-. destruct (decide (d = 1)) as [->|Hne]; [lia|].
  destruct (Hb i d Hd) as [?|Hbig]; [done|].
  destruct (Forall2_lookup_r _ _ _ _ _ Hv Hbig) as (v & -> & Hlt). done.
Qed.

(** Broadcasting to the same shape leaves an index of it unchanged. *)
Lemma bcast_of_same idx sh : valid_index idx sh -> bcast_of idx sh sh = idx.
Proof.
  intros Hv. rewrite bcast_of_imap, Nat.sub_diag.
  apply list_eq. intros i. rewrite list_lookup_imap.
  destruct (sh !! i) as [d|] eqn:Hd; simpl.
  - destruct (Forall2_lookup_r _ _ _ _ _ Hv Hd) as (v & Hi & Hlt).
    rewrite Nat.add_0_r, Hi. simpl. destruct (decide (d = 1)); [f_equal; lia|done].
  - symmetry. apply lookup_ge_None. apply lookup_ge_None in Hd.
    apply Forall2_length in Hv. lia.
Qed.

Lemma broadcasts_to_refl sh : broadcasts_to sh sh.
Proof.
  split; [done|]. intros i s H. right. now rewrite Nat.sub_diag, Nat.add_0_r.
Qed.

End IndexArithmetic.

(** * Running the monad *)

Lemma bind_ok {A B} (m : M A) (k : A -> M B) s x s' :
  m s = (inr x, s') -> (m ≫= k) s = k x s'.
Proof. intros H. munfold. now rewrite H. Qed.

Lemma bind_raise {A B} (m : M A) (k : A -> M B) s e s' :
  m s = (inl e, s') -> (m ≫= k) s = (inl e, s').
Proof. intros H. munfold. now rewrite H. Qed.

Lemma load_ok l pos s arr :
  heap s !! l = Some arr -> pos < length arr -> load l pos s = (inr (arr !!! pos), s).
Proof.
  intros H Hp. unfold load. rewrite H.
  destruct (lookup_lt_is_Some_2 arr pos Hp) as [x Hx].
  rewrite Hx. now rewrite (list_lookup_total_correct _ _ _ Hx).
Qed.

Lemma store_ok l pos v s arr :
  heap s !! l = Some arr -> pos < length arr ->
  store l pos v s
  = (inr tt, State (<[l := <[pos := v]> arr]> (heap s)) (log s ++ [Write_ l pos v])).
Proof. intros H Hp. unfold store. rewrite H. now rewrite decide_True. Qed.

Lemma for_each_cons {S} i (l : list nat) (body : nat -> S -> M S) acc :
  for_each (i :: l) body acc = (body i acc ≫= for_each l body).
Proof. reflexivity. Qed.

Lemma for_each_ext {S} (l : list nat) (body1 body2 : nat -> S -> M S) :
  (forall i acc s, i ∈ l -> body1 i acc s = body2 i acc s) ->
  forall acc s, for_each l body1 acc s = for_each l body2 acc s.
Proof.
  induction l as [|i l IH]; intros Hb acc s; [done|].
  rewrite !for_each_cons. munfold.
  rewrite (Hb i acc s (list_elem_of_here _ _)).
  destruct (body2 i acc s) as [[e|acc'] s1]; [done|].
  apply IH. intros j b s' Hj. apply Hb. now apply list_elem_of_further.
Qed.

Lemma for_each_app {S} (l1 l2 : list nat) (body : nat -> S -> M S) acc s :
  for_each (l1 ++ l2) body acc s
  = (for_each l1 body acc ≫= for_each l2 body) s.
Proof.
  revert acc s. induction l1 as [|i l1 IH]; intros acc s; simpl.
  - done.
  - munfold. destruct (body i acc s) as [[e|acc'] s1]; [done|]. apply IH.
Qed.

(** ** Loops whose every iteration stores one cell of the output *)

Lemma frame_refl out s : frame out (heap s) s.
Proof. split; done. Qed.

Lemma frame_store out h0 s arr log' :
  frame out h0 s -> frame out h0 (State (<[out := arr]> (heap s)) log').
Proof.
  intros [Hl Hf]. split; simpl.
  - now rewrite length_insert.
  - intros l Hne. rewrite list_lookup_insert_ne by done. now apply Hf.
Qed.

Lemma apply_writes_length p v arr l : length (apply_writes p v arr l) = length arr.
Proof.
  revert arr. induction l as [|i l IH]; intros arr; simpl; [done|].
  unfold apply_writes in *. simpl. now rewrite IH, length_insert.
Qed.

Section StoreLoop.

Context {S : Type} (body : nat -> S -> M S).
Context (out : loc) (h0 : list (list float)) (n : nat).
Context (P : S -> Prop) (p : nat -> nat) (v : nat -> float).

Lemma for_each_stores (l : list nat) :
  (forall i, i ∈ l -> stores_at body out h0 n P p v i) ->
  forall acc s arr,
    P acc -> frame out h0 s -> heap s !! out = Some arr -> length arr = n ->
    exists acc', P acc' /\
      for_each l body acc s
      = (inr acc', State (<[out := apply_writes p v arr l]> (heap s))
                         (log s ++ writes_of out p v l)).
Proof.
  induction l as [|i l IH]; intros Hbody acc s arr HP Hfr Hout Hlen.
  - exists acc. split; [done|]. simpl. unfold ret, writes_of. simpl.
    rewrite app_nil_r, list_insert_id by done. now destruct s.
  - destruct (Hbody i (list_elem_of_here _ _) acc s arr) as (acc1 & HP1 & E1); auto.
    set (s1 := State _ _) in E1.
    assert (heap s1 !! out = Some (<[p i := v i]> arr)) as Hout1.
    { simpl. apply list_lookup_insert_eq. eapply lookup_lt_Some, Hout. }
    destruct (IH (fun j Hj => Hbody j (list_elem_of_further _ _ _ Hj))
                 acc1 s1 (<[p i := v i]> arr)) as (acc2 & HP2 & E2); auto.
    { now apply frame_store. }
    { now rewrite length_insert. }
    exists acc2. split; [done|]. simpl.
    rewrite (bind_ok _ _ _ _ _ E1), E2. subst s1. simpl.
    rewrite list_insert_insert_eq. unfold writes_of. simpl.
    now rewrite <- app_assoc.
Qed.

End StoreLoop.

(** * tensor_map *)

Lemma tensor_map_unfold fn out out_shape out_strides in_storage in_shape in_strides :
  tensor_map fn out out_shape out_strides in_storage in_shape in_strides
  = (_ ← for_range (prod out_shape)
           (map_body fn out out_shape out_strides in_storage in_shape in_strides)
           (replicate (length out_shape) 0, replicate (length in_shape) 0);
     mret tt).
Proof. reflexivity. Qed.

Section MapLoop.

Context (fn : float -> float).
Context (out : loc) (out_shape out_strides : list nat).
Context (in_storage : loc) (in_shape in_strides : list nat).
Context (h0 : list (list float)) (iv : list float) (n : nat).
Hypothesis Hdistinct : out ≠ in_storage.
Hypothesis Hin : h0 !! in_storage = Some iv.

Lemma map_body_stores i :
  out_position out_shape out_strides i < n ->
  in_position out_shape in_shape in_strides i < length iv ->
  stores_at (map_body fn out out_shape out_strides in_storage in_shape in_strides)
    out h0 n (map_buffers out_shape in_shape)
    (out_position out_shape out_strides)
    (fun i => fn (iv !!! in_position out_shape in_shape in_strides i)) i.
Proof.
  intros Ho Hi [oi ii] s arr [Hoi Hii] [Hlen Hfr] Hout Harr. simpl in Hoi, Hii.
  exists (index_of i out_shape, bcast_of (index_of i out_shape) out_shape in_shape).
  split.
  { split; simpl; [apply index_of_length|].
    rewrite bcast_of_imap. apply length_imap. }
  unfold map_body.
  rewrite (to_index_buffer _ _ _ Hoi), (broadcast_index_buffer _ _ _ _ Hii).
  fold (out_position out_shape out_strides i).
  fold (in_position out_shape in_shape in_strides i).
  assert (heap s !! in_storage = Some iv) as Hs by (rewrite Hfr; auto).
  rewrite (bind_ok _ _ _ _ _ (load_ok _ _ _ _ Hs Hi)).
  erewrite bind_ok; [reflexivity|].
  apply store_ok; [done|lia].
Qed.

End MapLoop.

(** What one run of [_map] does, for positions that stay inside the two
    storages. *)
Lemma tensor_map_run fn out out_shape out_strides in_storage in_shape in_strides s ov iv :
  out ≠ in_storage ->
  heap s !! out = Some ov ->
  heap s !! in_storage = Some iv ->
  (forall i, i < prod out_shape ->
     out_position out_shape out_strides i < length ov /\
     in_position out_shape in_shape in_strides i < length iv) ->
  let p := out_position out_shape out_strides in
  let v i := fn (iv !!! in_position out_shape in_shape in_strides i) in
  tensor_map fn out out_shape out_strides in_storage in_shape in_strides s
  = (inr tt, State (<[out := apply_writes p v ov (seq 0 (prod out_shape))]> (heap s))
                   (log s ++ writes_of out p v (seq 0 (prod out_shape)))).
Proof.
  intros Hne Hout Hin Hpos p v.
  rewrite tensor_map_unfold. unfold for_range.
  edestruct (for_each_stores
               (map_body fn out out_shape out_strides in_storage in_shape in_strides)
               out (heap s) (length ov) (map_buffers out_shape in_shape)
               p v (seq 0 (prod out_shape)))
    with (acc := (replicate (length out_shape) 0, replicate (length in_shape) 0))
         (s := s) (arr := ov)
    as (acc' & _ & E).
  - intros i Hi. apply elem_of_seq in Hi.
    apply (map_body_stores fn out out_shape out_strides in_storage in_shape in_strides
             (heap s) iv (length ov) Hne Hin i); apply Hpos; lia.
  - split; simpl; apply length_replicate.
  - apply frame_refl.
  - exact Hout.
  - reflexivity.
  - erewrite bind_ok by exact E. reflexivity.
Qed.

(** Positions stay inside the storages when the layouts do and the input
    shape broadcasts to the output shape. *)
Lemma map_positions out_shape out_strides in_shape in_strides n m :
  broadcasts_to in_shape out_shape ->
  in_bounds out_shape out_strides n ->
  in_bounds in_shape in_strides m ->
  forall i, i < prod out_shape ->
    out_position out_shape out_strides i < n /\
    in_position out_shape in_shape in_strides i < m.
Proof.
  intros Hb Hbo Hbi i Hi. pose proof (index_of_valid _ _ Hi) as Hv. split.
  - now apply Hbo.
  - apply Hbi. now apply bcast_of_valid.
Qed.

(** C1, tensor_map: with an input shape that broadcasts to the output
    shape, storages that do not alias and layouts that stay inside them,
    [_map] runs to completion and the writes it performs are, in order,
    exactly one per ordinal [i] of [0, prod(out_shape))]: the value
    [fn(in_storage[index_to_position(broadcast_index(to_index(i,
    out_shape), out_shape, in_shape), in_strides)])] stored at
    [index_to_position(to_index(i, out_shape), out_strides)]. *)
Theorem tensor_map_writes
    (fn : float -> float) (out : loc) (out_shape out_strides : list nat)
    (in_storage : loc) (in_shape in_strides : list nat)
    (s : state) (ov iv : list float) :
  out ≠ in_storage ->
  heap s !! out = Some ov ->
  heap s !! in_storage = Some iv ->
  broadcasts_to in_shape out_shape ->
  in_bounds out_shape out_strides (length ov) ->
  in_bounds in_shape in_strides (length iv) ->
  let out_pos i := index_to_position (index_of i out_shape) out_strides in
  let in_pos i :=
    index_to_position (bcast_of (index_of i out_shape) out_shape in_shape) in_strides in
  let value i := fn (iv !!! in_pos i) in
  (forall i, i < prod out_shape -> out_pos i < length ov /\ in_pos i < length iv) /\
  exists s',
    tensor_map fn out out_shape out_strides in_storage in_shape in_strides s
      = (inr tt, s') /\
    log s' = log s ++ ((fun i => Write_ out (out_pos i) (value i)) <$> seq 0 (prod out_shape)) /\
    heap s' = <[out := foldl (fun arr i => <[out_pos i := value i]> arr) ov
                             (seq 0 (prod out_shape))]> (heap s).
Proof.
  intros Hne Hout Hin Hb Hbo Hbi out_pos in_pos value.
  pose proof (map_positions _ _ _ _ _ _ Hb Hbo Hbi) as Hpos.
  split; [exact Hpos|].
  eexists. split; [|split]; cycle 1; [| |
    apply (tensor_map_run fn out out_shape out_strides in_storage in_shape in_strides
             s ov iv Hne Hout Hin Hpos)]; reflexivity.
Qed.

(** * tensor_reduce *)

Lemma tensor_reduce_unfold fn out out_shape out_strides a_storage a_shape a_strides reduce_dim :
  tensor_reduce fn out out_shape out_strides a_storage a_shape a_strides reduce_dim
  = (dim_size ← py_get a_shape reduce_dim;
     n ← len out;
     _ ← for_range n
           (reduce_body fn out out_shape out_strides a_storage a_strides reduce_dim dim_size)
           (replicate (length out_shape) 0);
     mret tt).
Proof. reflexivity. Qed.

Lemma foldl_reduce_step fn r xs :
  foldl (reduce_step fn) (Some r) xs = Some (foldl fn r xs).
Proof. revert r. induction xs as [|x xs IH]; intros r; simpl; [done|apply IH]. Qed.

Lemma foldl_reduce_step_None fn xs :
  default None_as_float64 (foldl (reduce_step fn) None xs) = reduce_value fn xs.
Proof. destruct xs as [|x xs]; simpl; [done|]. now rewrite foldl_reduce_step. Qed.

Lemma py_get_ok {A} (l : list A) i d x :
  py_index (length l) i = Some d -> l !! d = Some x -> forall s, py_get l i s = (inr x, s).
Proof. intros Hd Hx s. unfold py_get. now rewrite Hd, Hx. Qed.

Lemma py_set_ok {A} (l : list A) i d x :
  py_index (length l) i = Some d -> forall s, py_set l i x s = (inr (<[d := x]> l), s).
Proof. intros Hd s. unfold py_set. now rewrite Hd. Qed.

Lemma py_index_lt n i d : py_index n i = Some d -> d < n.
Proof. unfold py_index. repeat case_decide; intros [= <-]; lia. Qed.

Lemma py_index_nonneg n (d : nat) : d < n -> py_index n (Z.of_nat d) = Some d.
Proof.
  intros H. unfold py_index. rewrite decide_True by lia. now rewrite Nat2Z.id.
Qed.

(** The inner loop: a left fold over the elements in increasing
    [reduce_pos]. *)
Lemma reduce_fold_ok fn out_index a_storage a_strides reduce_dim dim_size d av s :
  py_index (length out_index) reduce_dim = Some d ->
  heap s !! a_storage = Some av ->
  (forall k, k < dim_size ->
     index_to_position (<[d := k]> out_index) a_strides < length av) ->
  reduce_fold fn out_index a_storage a_strides reduce_dim dim_size s
  = (inr (foldl (reduce_step fn) None (reduce_elems av a_strides d dim_size out_index)), s).
Proof.
  intros Hd Ha Hpos. unfold reduce_fold, for_range, reduce_elems.
  assert (forall k, k ∈ seq 0 dim_size -> k < dim_size) as Hl.
  { intros k Hk. apply elem_of_seq in Hk. lia. }
  generalize (@None float) as res. revert Hl.
  generalize (seq 0 dim_size) as l.
  induction l as [|k l IH]; intros Hl res; [done|].
  rewrite for_each_cons, fmap_cons. cbn [foldl].
  erewrite bind_ok; [apply IH; intros j Hj; apply Hl; now apply list_elem_of_further|].
  rewrite (bind_ok _ _ _ _ _ (py_set_ok _ _ _ _ Hd s)).
  erewrite bind_ok; [|apply (load_ok _ _ _ _ Ha), Hpos, Hl, list_elem_of_here].
  assert (forall r : option float,
            (match r with
             | Some r0 => mret (Some (fn r0 (av !!! index_to_position (<[d:=k]> out_index) a_strides)))
             | None => mret (Some (av !!! index_to_position (<[d:=k]> out_index) a_strides))
             end : M (option float)) s
            = (inr (reduce_step fn r (av !!! index_to_position (<[d:=k]> out_index) a_strides)), s))
    as Hstep by (intros [r|]; reflexivity).
  apply Hstep.
Qed.

(** Replacing component [d] of an index of the reduced shape by a position
    along dimension [d] gives an index of the input shape. *)
Lemma valid_index_reduce idx sh d ds k :
  valid_index idx (<[d := 1]> sh) -> sh !! d = Some ds -> k < ds ->
  valid_index (<[d := k]> idx) sh.
Proof.
  intros Hv Hd Hk. pose proof (Forall2_length _ _ _ Hv) as Hlen.
  rewrite length_insert in Hlen.
  apply Forall2_same_length_lookup_2; [now rewrite length_insert|].
  intros j x y Hx Hy. destruct (decide (j = d)) as [->|Hne].
  - rewrite list_lookup_insert_eq in Hx by (apply lookup_lt_Some in Hy; lia).
    congruence.
  - rewrite list_lookup_insert_ne in Hx by done.
    eapply (Forall2_lookup_lr _ _ _ _ _ _ Hv Hx).
    now rewrite list_lookup_insert_ne.
Qed.

Section ReduceLoop.

Context (fn : float -> float -> float).
Context (out : loc) (out_shape out_strides : list nat).
Context (a_storage : loc) (a_shape a_strides : list nat).
Context (reduce_dim : Z) (d dim_size : nat).
Context (h0 : list (list float)) (av : list float) (n : nat).
Hypothesis Hdistinct : out ≠ a_storage.
Hypothesis Ha : h0 !! a_storage = Some av.
Hypothesis Hdim : py_index (length out_shape) reduce_dim = Some d.

Lemma reduce_body_stores i :
  out_position out_shape out_strides i < n ->
  (forall k, k < dim_size ->
     index_to_position (<[d := k]> (index_of i out_shape)) a_strides < length av) ->
  stores_at (reduce_body fn out out_shape out_strides a_storage a_strides reduce_dim dim_size)
    out h0 n (fun out_index => length out_index = length out_shape)
    (out_position out_shape out_strides)
    (fun i => reduce_value fn (reduce_elems av a_strides d dim_size (index_of i out_shape))) i.
Proof.
  intros Ho Hk oi s arr Hoi [Hlen Hfr] Hout Harr.
  exists (index_of i out_shape). split; [apply index_of_length|].
  unfold reduce_body. rewrite (to_index_buffer _ _ _ Hoi).
  fold (out_position out_shape out_strides i).
  assert (heap s !! a_storage = Some av) as Hs by (rewrite Hfr; auto).
  erewrite bind_ok; cycle 1.
  { apply reduce_fold_ok with (d := d) (av := av); auto.
    now rewrite index_of_length. }
  rewrite foldl_reduce_step_None.
  erewrite bind_ok; [reflexivity|].
  apply store_ok; [done|lia].
Qed.

End ReduceLoop.

(** What one run of [_reduce] does, for positions that stay inside the
    two storages. *)
Lemma tensor_reduce_run fn out out_shape out_strides a_storage a_shape a_strides
    reduce_dim d dim_size s ov av :
  out ≠ a_storage ->
  heap s !! out = Some ov ->
  heap s !! a_storage = Some av ->
  py_index (length a_shape) reduce_dim = Some d ->
  a_shape !! d = Some dim_size ->
  length out_shape = length a_shape ->
  (forall i, i < length ov -> out_position out_shape out_strides i < length ov) ->
  (forall i k, i < length ov -> k < dim_size ->
     index_to_position (<[d := k]> (index_of i out_shape)) a_strides < length av) ->
  let p := out_position out_shape out_strides in
  let v i := reduce_value fn (reduce_elems av a_strides d dim_size (index_of i out_shape)) in
  tensor_reduce fn out out_shape out_strides a_storage a_shape a_strides reduce_dim s
  = (inr tt, State (<[out := apply_writes p v ov (seq 0 (length ov))]> (heap s))
                   (log s ++ writes_of out p v (seq 0 (length ov)))).
Proof.
  intros Hne Hout Ha Hd Hds Hrank Hop Hap p v.
  rewrite tensor_reduce_unfold.
  rewrite (bind_ok _ _ _ _ _ (py_get_ok _ _ _ _ Hd Hds s)).
  assert (len out s = (inr (length ov), s)) as Hn by (unfold len; now rewrite Hout).
  rewrite (bind_ok _ _ _ _ _ Hn). unfold for_range.
  edestruct (for_each_stores
               (reduce_body fn out out_shape out_strides a_storage a_strides reduce_dim dim_size)
               out (heap s) (length ov) (fun oi => length oi = length out_shape)
               p v (seq 0 (length ov)))
    with (acc := replicate (length out_shape) 0) (s := s) (arr := ov)
    as (acc' & _ & E).
  - intros i Hi. apply elem_of_seq in Hi.
    apply (reduce_body_stores fn out out_shape out_strides a_storage a_strides
             reduce_dim d dim_size (heap s) av (length ov) Hne Ha).
    + now rewrite Hrank.
    + apply Hop. lia.
    + intros k Hk. apply Hap; lia.
  - apply length_replicate.
  - apply frame_refl.
  - exact Hout.
  - reflexivity.
  - erewrite bind_ok by exact E. reflexivity.
Qed.

(** C2, tensor_reduce: the value [_reduce] stores for each output ordinal
    is the left fold of [fn] over the input elements along [reduce_dim],
    read at [reduce_pos = 0, 1, ..., a_shape[reduce_dim] - 1] in that
    order and combined left to right from the first one, for any [fn]. *)
Theorem tensor_reduce_left_fold
    (fn : float -> float -> float) (out : loc) (out_strides : list nat)
    (a_storage : loc) (a_shape a_strides : list nat) (reduce_dim : Z)
    (d dim_size : nat) (s : state) (ov av : list float) :
  let out_shape := <[d := 1]> a_shape in
  out ≠ a_storage ->
  heap s !! out = Some ov ->
  heap s !! a_storage = Some av ->
  py_index (length a_shape) reduce_dim = Some d ->
  a_shape !! d = Some dim_size ->
  length ov = prod out_shape ->
  in_bounds out_shape out_strides (length ov) ->
  in_bounds a_shape a_strides (length av) ->
  let out_pos i := index_to_position (index_of i out_shape) out_strides in
  let elems i :=
    (fun reduce_pos =>
       av !!! index_to_position (<[d := reduce_pos]> (index_of i out_shape)) a_strides)
    <$> seq 0 dim_size in
  let value i :=
    match elems i with
    | [] => None_as_float64
    | first :: rest => foldl fn first rest
    end in
  exists s',
    tensor_reduce fn out out_shape out_strides a_storage a_shape a_strides reduce_dim s
      = (inr tt, s') /\
    log s' = log s ++ ((fun i => Write_ out (out_pos i) (value i)) <$> seq 0 (prod out_shape)) /\
    heap s' = <[out := foldl (fun arr i => <[out_pos i := value i]> arr) ov
                             (seq 0 (prod out_shape))]> (heap s).
Proof.
  intros out_shape Hne Hout Ha Hd Hds Hlen Hbo Hba out_pos elems value.
  pose proof (tensor_reduce_run fn out out_shape out_strides a_storage a_shape a_strides
                reduce_dim d dim_size s ov av Hne Hout Ha Hd Hds) as E.
  rewrite Hlen in E. eexists. split; [apply E|split; reflexivity].
  - unfold out_shape. apply length_insert.
  - intros i Hi. rewrite <- Hlen. apply Hbo, index_of_valid. lia.
  - intros i k Hi Hk. apply Hba.
    apply valid_index_reduce with (ds := dim_size); auto.
    apply index_of_valid. exact Hi.
Qed.

(** * The wrappers of SimpleOps *)

Lemma apply_writes_ext p p' v v' arr l :
  (forall i, i ∈ l -> p i = p' i /\ v i = v' i) ->
  apply_writes p v arr l = apply_writes p' v' arr l.
Proof.
  revert arr. induction l as [|i l IH]; intros arr H; [done|].
  unfold apply_writes in *. cbn [foldl].
  destruct (H i (list_elem_of_here _ _)) as [-> ->].
  apply IH. intros j Hj. apply H. now apply list_elem_of_further.
Qed.

Lemma apply_writes_prefix v arr k :
  k <= length arr ->
  apply_writes (fun i => i) v arr (seq 0 k) = (v <$> seq 0 k) ++ drop k arr.
Proof.
  induction k as [|k IH]; intros Hk.
  - now rewrite drop_0.
  - rewrite seq_S. unfold apply_writes in *. rewrite foldl_app. cbn [foldl].
    rewrite IH by lia. rewrite fmap_app. cbn [fmap list_fmap].
    rewrite insert_app_r_alt by (rewrite length_fmap, length_seq; lia).
    rewrite length_fmap, length_seq, Nat.sub_diag, <- app_assoc. f_equal.
    destruct (lookup_lt_is_Some_2 arr k) as [x Hx]; [lia|].
    now rewrite (drop_S _ _ _ Hx).
Qed.

(** Writing every cell of an array once, in order, replaces the array. *)
Lemma apply_writes_all p v v' arr n :
  length arr = n ->
  (forall i, i < n -> p i = i /\ v i = v' i) ->
  apply_writes p v arr (seq 0 n) = v' <$> seq 0 n.
Proof.
  intros <- Hp. rewrite (apply_writes_ext p (fun i => i) v v').
  - rewrite apply_writes_prefix by done. now rewrite drop_all, app_nil_r.
  - intros i Hi. apply elem_of_seq in Hi. apply Hp. lia.
Qed.

Lemma writes_of_ext out p p' v v' l :
  (forall i, i ∈ l -> p i = p' i /\ v i = v' i) ->
  writes_of out p v l = writes_of out p' v' l.
Proof.
  intros H. unfold writes_of. apply list_fmap_ext. intros k i Hi.
  destruct (H i) as [-> ->]; [|done]. eapply list_elem_of_lookup_2, Hi.
Qed.

Lemma heap_alloc_insert (h : list (list float)) x y :
  <[length h := x]> (h ++ [y]) = h ++ [x].
Proof. rewrite insert_app_r_alt by done. now rewrite Nat.sub_diag. Qed.

Lemma zeros_run sh s :
  zeros sh s
  = (inr {| storage := length (heap s); shape := sh; strides := strides_from_shape sh |},
     State (heap s ++ [replicate (prod sh) 0%float]) (log s)).
Proof. reflexivity. Qed.

Lemma out_position_row_major sh i :
  i < prod sh -> out_position sh (strides_from_shape sh) i = i.
Proof. apply index_of_position. Qed.

(** What [SimpleOps.reduce(fn, start)(a, dim)] returns and leaves in the
    heap: a new row-major tensor whose cells are the reduced values. *)
Lemma SimpleOps_reduce_run fn start a dim d ds s av :
  tensor_in s a av ->
  py_index (length (shape a)) dim = Some d ->
  shape a !! d = Some ds ->
  let out_shape := <[d := 1]> (shape a) in
  let v i := reduce_value fn (reduce_elems av (strides a) d ds (index_of i out_shape)) in
  SimpleOps.reduce fn start a dim s
  = (inr {| storage := length (heap s); shape := out_shape;
            strides := strides_from_shape out_shape |},
     State (heap s ++ [v <$> seq 0 (prod out_shape)])
           (log s ++ writes_of (length (heap s)) (fun i => i) v (seq 0 (prod out_shape)))).
Proof.
  intros [Ha Hb] Hd Hds out_shape v. unfold SimpleOps.reduce.
  rewrite (bind_ok _ _ _ _ _ (py_set_ok _ _ _ _ Hd s)). fold out_shape.
  rewrite (bind_ok _ _ _ _ _ (zeros_run out_shape s)). cbn [storage shape strides].
  set (l := length (heap s)). set (n := prod out_shape).
  assert (storage a < l) as Hlt by (eapply lookup_lt_Some, Ha).
  erewrite bind_ok; cycle 1.
  { unfold fill. cbn [heap log]. unfold l.
    rewrite list_lookup_middle by done. reflexivity. }
  rewrite heap_alloc_insert, length_replicate.
  erewrite bind_ok; cycle 1.
  { apply tensor_reduce_run
      with (d := d) (dim_size := ds) (av := av) (ov := replicate n start).
    - unfold l. lia.
    - cbn [heap]. unfold l. now apply list_lookup_middle.
    - cbn [heap]. rewrite lookup_app_l by done. exact Ha.
    - exact Hd.
    - exact Hds.
    - apply length_insert.
    - intros i Hi. rewrite length_replicate in *.
      now rewrite out_position_row_major.
    - intros i k Hi Hk. rewrite length_replicate in Hi. apply Hb.
      apply valid_index_reduce with (ds := ds); auto.
      now apply index_of_valid. }
  cbn [heap log]. unfold mret, M_ret, ret. f_equal. f_equal.
  - unfold l. rewrite heap_alloc_insert. f_equal. f_equal.
    rewrite length_replicate. apply apply_writes_all; [apply length_replicate|].
    intros i Hi. split; [now apply out_position_row_major|done].
  - f_equal. rewrite length_replicate. apply writes_of_ext.
    intros i Hi. apply elem_of_seq in Hi. split; [|done].
    apply out_position_row_major. unfold n. lia.
Qed.

(** A layout is inside an array when its largest index is. *)
Lemma in_bounds_max sh st n :
  index_to_position (Nat.pred <$> sh) st < n -> in_bounds sh st n.
Proof.
  intros H idx Hv.
  enough (index_to_position idx st <= index_to_position (Nat.pred <$> sh) st) by lia.
  clear H. revert st. induction Hv as [|i d idx sh Hi _ IH]; intros st; [done|].
  destruct st as [|t st]; cbn [index_to_position fmap list_fmap]; [done|].
  specialize (IH st). cbn [fmap] in IH. nia.
Qed.

Lemma in_bounds_row_major sh : in_bounds sh (strides_from_shape sh) (prod sh).
Proof. intros idx Hv. now apply position_bound. Qed.

(** C4, SimpleOps.reduce: for a tensor of the heap and a dimension [dim]
    of its shape, the call returns a tensor whose shape is the shape of
    [a] with entry [dim] replaced by 1 and every other entry unchanged. *)
Theorem reduce_output_shape
    (fn : float -> float -> float) (start : float) (a : Tensor) (dim : Z)
    (s : state) (av : list float) :
  tensor_in s a av ->
  (0 <= dim < Z.of_nat (length (shape a)))%Z ->
  exists out s',
    SimpleOps.reduce fn start a dim s = (inr out, s') /\
    shape out = <[Z.to_nat dim := 1]> (shape a) /\
    length (shape out) = length (shape a) /\
    shape out !! Z.to_nat dim = Some 1 /\
    forall j, j ≠ Z.to_nat dim -> shape out !! j = shape a !! j.
Proof.
  intros Ha Hdim.
  assert (Z.to_nat dim < length (shape a)) as Hlt by lia.
  destruct (lookup_lt_is_Some_2 _ _ Hlt) as [ds Hds].
  assert (py_index (length (shape a)) dim = Some (Z.to_nat dim)) as Hd.
  { rewrite <- (Z2Nat.id dim) at 1 by lia. now apply py_index_nonneg. }
  eexists _, _. split; [apply (SimpleOps_reduce_run fn start a dim _ ds s av Ha Hd Hds)|].
  cbn [shape]. split; [done|]. split; [apply length_insert|]. split.
  - now apply list_lookup_insert_eq.
  - intros j Hj. now apply list_lookup_insert_ne.
Qed.

Lemma reduce_output_shape_witness :
  exists out s',
    SimpleOps.reduce operators.add 0%float
      {| storage := 0; shape := [2; 3]; strides := [3; 1] |} 1
      (State [[1; 2; 3; 4; 5; 6]%float] []) = (inr out, s') /\
    shape out = [2; 1].
Proof.
  destruct (reduce_output_shape operators.add 0%float
              {| storage := 0; shape := [2; 3]; strides := [3; 1] |} 1
              (State [[1; 2; 3; 4; 5; 6]%float] []) [1; 2; 3; 4; 5; 6]%float)
    as (out & s' & E & Hs & _).
  - split; [reflexivity|]. apply in_bounds_max. simpl. lia.
  - simpl. lia.
  - exists out, s'. split; [exact E|exact Hs].
Defined.

Lemma reduce_value_first fn av st d ds idx :
  1 <= ds ->
  reduce_value fn (reduce_elems av st d ds idx)
  = foldl fn (av !!! index_to_position (<[d := 0]> idx) st)
          ((fun k => av !!! index_to_position (<[d := k]> idx) st) <$> seq 1 (ds - 1)).
Proof.
  intros H. unfold reduce_elems.
  replace ds with (S (ds - 1)) at 1 by lia. reflexivity.
Qed.

(** C10, SimpleOps.reduce: when the reduced dimension has at least one
    element, every cell of the returned tensor is the left fold of [fn]
    over the input elements along that dimension, the first element being
    the initial accumulator; the start value filled into the output before
    [_reduce] runs is overwritten, so the tensor returned and the heap left
    are the same for every [start]. *)
Theorem reduce_first_element_policy
    (fn : float -> float -> float) (a : Tensor) (dim : Z) (d ds : nat)
    (s : state) (av : list float) :
  tensor_in s a av ->
  py_index (length (shape a)) dim = Some d ->
  shape a !! d = Some ds ->
  1 <= ds ->
  let out_shape := <[d := 1]> (shape a) in
  let elem i reduce_pos := cell av a (<[d := reduce_pos]> (index_of i out_shape)) in
  let value i := foldl fn (elem i 0) (elem i <$> seq 1 (ds - 1)) in
  exists out s',
    (forall start, SimpleOps.reduce fn start a dim s = (inr out, s')) /\
    shape out = out_shape /\
    heap s' !! storage out = Some (value <$> seq 0 (prod out_shape)).
Proof.
  intros Ha Hd Hds Hpos out_shape elem value.
  eexists _, _. split; [|split].
  - intros start. apply (SimpleOps_reduce_run fn start a dim d ds s av Ha Hd Hds).
  - reflexivity.
  - cbn [storage heap]. rewrite list_lookup_middle by done. f_equal.
    apply list_fmap_ext. intros k i _.
    now apply reduce_value_first.
Qed.

Lemma reduce_first_element_policy_witness :
  exists out s',
    (forall start,
       SimpleOps.reduce (fun x y => x - y)%float start
         {| storage := 0; shape := [2; 3]; strides := [3; 1] |} 1
         (State [[1; 2; 3; 4; 5; 6]%float] []) = (inr out, s')) /\
    heap s' !! storage out = Some [(1 - 2 - 3)%float; (4 - 5 - 6)%float].
Proof.
  destruct (reduce_first_element_policy (fun x y => x - y)%float
              {| storage := 0; shape := [2; 3]; strides := [3; 1] |} 1 1 3
              (State [[1; 2; 3; 4; 5; 6]%float] []) [1; 2; 3; 4; 5; 6]%float)
    as (out & s' & E & _ & Hs).
  - split; [reflexivity|]. apply in_bounds_max. simpl. lia.
  - reflexivity.
  - reflexivity.
  - lia.
  - exists out, s'. split; [exact E|]. rewrite Hs. reflexivity.
Defined.

Lemma tensor_reduce_left_fold_witness :
  exists s',
    tensor_reduce (fun x y => x - y)%float 1 [2; 1] [1; 1] 0 [2; 3] [3; 1] 1
      (State [[1; 2; 3; 4; 5; 6]; [0; 0]]%float []) = (inr tt, s') /\
    log s' = [Write_ 1 0 (1 - 2 - 3)%float; Write_ 1 1 (4 - 5 - 6)%float].
Proof.
  destruct (tensor_reduce_left_fold (fun x y => x - y)%float 1 [1; 1] 0 [2; 3] [3; 1] 1 1 3
              (State [[1; 2; 3; 4; 5; 6]; [0; 0]]%float [])
              [0; 0]%float [1; 2; 3; 4; 5; 6]%float)
    as (s' & E & Hl & _).
  - lia.
  - reflexivity.
  - reflexivity.
  - reflexivity.
  - reflexivity.
  - reflexivity.
  - apply in_bounds_max. simpl. lia.
  - apply in_bounds_max. simpl. lia.
  - exists s'. split; [exact E|]. rewrite Hl. reflexivity.
Defined.

Lemma tensor_map_writes_witness :
  exists s',
    tensor_map operators.neg 1 [2; 3] [3; 1] 0 [3] [1]
      (State [[10; 20; 30]; [0; 0; 0; 0; 0; 0]]%float []) = (inr tt, s') /\
    heap s' = [[10; 20; 30]; [-10; -20; -30; -10; -20; -30]]%float /\
    w_pos <$> log s' = [0; 1; 2; 3; 4; 5].
Proof.
  destruct (tensor_map_writes operators.neg 1 [2; 3] [3; 1] 0 [3] [1]
              (State [[10; 20; 30]; [0; 0; 0; 0; 0; 0]]%float [])
              [0; 0; 0; 0; 0; 0]%float [10; 20; 30]%float)
    as (_ & s' & E & Hl & Hh).
  - lia.
  - reflexivity.
  - reflexivity.
  - split; [simpl; lia|].
    intros [|i] d H; [injection H as <-; right; reflexivity|discriminate].
  - apply in_bounds_max. simpl. lia.
  - apply in_bounds_max. simpl. lia.
  - exists s'. split; [exact E|]. rewrite Hl, Hh. split; reflexivity.
Defined.

(** * tensor_zip *)

(** ** Index bookkeeping does not touch the heap *)

Lemma for_each_pure {S} (body : nat -> S -> M S) l :
  (forall i acc, exists r, pure_with (body i acc) r) ->
  forall acc, exists r, pure_with (for_each l body acc) r.
Proof.
  intros Hb. induction l as [|i l IH]; intros acc.
  - exists (Some acc). intros s. reflexivity.
  - destruct (Hb i acc) as [[acc'|] Hr].
    + destruct (IH acc') as [r Hr']. exists r. intros s.
      rewrite for_each_cons. erewrite bind_ok by apply Hr. apply Hr'.
    + exists None. intros s.
      rewrite for_each_cons. erewrite bind_raise by apply Hr. reflexivity.
Qed.

Lemma zip_index_pure sh out_index index :
  exists r, pure_with (zip_index sh out_index index) r.
Proof.
  apply for_each_pure. intros i acc. unfold get_item, set_item.
  destruct (sh !! i) as [d|]; [|exists None; intros s; reflexivity].
  destruct (decide (d = 1)) as [Hd|Hd], (decide (i < length acc)) as [Hi|Hi],
    (out_index !! i) as [v|] eqn:Hv.
  all: first
    [ exists (Some (<[i := 0]> acc)); intros s; munfold; cbn;
      repeat case_decide; done
    | exists (Some (<[i := v]> acc)); intros s; munfold; cbn;
      repeat case_decide; done
    | exists None; intros s; munfold; cbn; repeat case_decide; done ].
Qed.

Lemma load_peek l pos s : load l pos s = (outcome (peek s l pos), s).
Proof.
  unfold load, peek. destruct (heap s !! l) as [arr|]; [|done].
  now destruct (arr !! pos).
Qed.

(** Two loads commute: neither changes the state and both raise the same
    exception. *)
Lemma load_swap {A} l1 p1 l2 p2 (k : float -> float -> M A) s :
  (x ← load l1 p1; y ← load l2 p2; k x y) s
  = (y ← load l2 p2; x ← load l1 p1; k x y) s.
Proof.
  munfold. rewrite !load_peek.
  destruct (peek s l1 p1) eqn:E1, (peek s l2 p2) eqn:E2; simpl;
    rewrite ?load_peek, ?E1, ?E2; reflexivity.
Qed.

Lemma pure_swap {A B C} (m1 : M A) (m2 : M B) r1 r2 (k : A -> B -> M C) s :
  pure_with m1 r1 -> pure_with m2 r2 ->
  (x ← m1; y ← m2; k x y) s = (y ← m2; x ← m1; k x y) s.
Proof.
  intros H1 H2. munfold. rewrite H1, H2.
  destruct r1, r2; simpl; rewrite ?H1, ?H2; reflexivity.
Qed.

(** ** Two loops that proceed in lockstep *)

Lemma for_each_related {S1 S2} (R : S1 -> S2 -> Prop)
    (body1 : nat -> S1 -> M S1) (body2 : nat -> S2 -> M S2) l :
  (forall i a1 a2 s, i ∈ l -> R a1 a2 -> related R (body1 i a1 s) (body2 i a2 s)) ->
  forall a1 a2 s, R a1 a2 -> related R (for_each l body1 a1 s) (for_each l body2 a2 s).
Proof.
  induction l as [|i l IH]; intros Hb a1 a2 s HR.
  - split; simpl; done.
  - rewrite !for_each_cons.
    destruct (Hb i a1 a2 s (list_elem_of_here _ _) HR) as [Hs Hr].
    munfold.
    destruct (body1 i a1 s) as [[e1|x1] s1], (body2 i a2 s) as [[e2|x2] s2];
      simpl in Hs, Hr; subst; try done.
    apply IH; [|done]. intros j b1 b2 s' Hj. apply Hb. now apply list_elem_of_further.
Qed.

Lemma related_discard {S1 S2} (R : S1 -> S2 -> Prop) (m1 : M S1) (m2 : M S2) s :
  related R (m1 s) (m2 s) ->
  (_ ← m1; mret tt) s = (_ ← m2; mret tt) s.
Proof.
  intros [Hs Hr]. munfold.
  destruct (m1 s) as [[e1|x1] s1], (m2 s) as [[e2|x2] s2];
    simpl in Hs, Hr; subst; done.
Qed.

(** ** The two branches of [_zip] *)

Lemma tensor_zip_fast_unfold fn out out_shape out_strides a_storage a_strides
    b_storage b_strides :
  tensor_zip_fast fn out out_shape out_strides a_storage a_strides b_storage b_strides
  = for_range (prod out_shape)
      (zip_fast_body fn out out_shape out_strides a_storage a_strides b_storage b_strides)
      tt.
Proof. reflexivity. Qed.

Lemma tensor_zip_general_unfold fn out out_shape out_strides a_storage a_shape a_strides
    b_storage b_shape b_strides :
  tensor_zip_general fn out out_shape out_strides
    a_storage a_shape a_strides b_storage b_shape b_strides
  = (_ ← for_range (prod out_shape)
           (zip_general_body fn out out_shape out_strides
              a_storage a_shape a_strides b_storage b_shape b_strides)
           (replicate (length out_shape) 0, replicate (length a_shape) 0,
            replicate (length b_shape) 0);
     mret tt).
Proof. reflexivity. Qed.

Lemma discard_unit (m : M unit) s : (_ ← m; mret tt) s = m s.
Proof. munfold. destruct (m s) as [[e|[]] s']; reflexivity. Qed.

(** ** Swapping the operands *)

Section ZipSwap.

Context (fn g : float -> float -> float).
Hypothesis Hfg : forall x y, fn x y = g y x.
Context (out : loc) (out_shape out_strides : list nat).
Context (a_storage : loc) (a_shape a_strides : list nat).
Context (b_storage : loc) (b_shape b_strides : list nat).

Lemma zip_fast_body_swap i u s :
  zip_fast_body fn out out_shape out_strides a_storage a_strides b_storage b_strides i u s
  = zip_fast_body g out out_shape out_strides b_storage b_strides a_storage a_strides i u s.
Proof.
  unfold zip_fast_body. rewrite load_swap. munfold. rewrite !load_peek.
  destruct (peek s b_storage _) as [y|]; cbn [outcome]; [|done].
  destruct (peek s a_storage _) as [x|]; cbn [outcome]; [|done].
  now rewrite Hfg.
Qed.

Lemma zip_general_body_swap i acc1 acc2 s :
  swapped acc1 acc2 ->
  related swapped
    (zip_general_body fn out out_shape out_strides
       a_storage a_shape a_strides b_storage b_shape b_strides i acc1 s)
    (zip_general_body g out out_shape out_strides
       b_storage b_shape b_strides a_storage a_shape a_strides i acc2 s).
Proof.
  destruct acc1 as [[oi ai] bi], acc2 as [[oi2 bi2] ai2].
  intros (<- & <- & <-). unfold zip_general_body.
  set (oi' := to_index i out_shape oi).
  destruct (zip_index_pure a_shape oi' ai) as [ra Ha].
  destruct (zip_index_pure b_shape oi' bi) as [rb Hb].
  rewrite (pure_swap _ _ _ _ _ _ Hb Ha).
  munfold. rewrite ?Ha.
  destruct ra as [ai'|]; cbn [outcome]; [|done].
  rewrite ?Hb.
  destruct rb as [bi'|]; cbn [outcome]; [|done].
  rewrite ?load_peek.
  destruct (peek s a_storage _) as [x|] eqn:Ea; cbn [outcome]; rewrite ?load_peek.
  - destruct (peek s b_storage _) as [y|] eqn:Eb; cbn [outcome]; rewrite ?load_peek, ?Ea; cbn [outcome].
    + rewrite Hfg. destruct (store out _ (g y x) s) as [[e|[]] s']; cbn [outcome]; done.
    + done.
  - destruct (peek s b_storage _) as [y|] eqn:Eb; cbn [outcome]; rewrite ?load_peek, ?Ea; cbn [outcome]; done.
Qed.

(** [_zip] with the operands exchanged and the function flipped does the
    same to the state and ends the same way. *)
Lemma tensor_zip_swap s :
  tensor_zip fn out out_shape out_strides
    a_storage a_shape a_strides b_storage b_shape b_strides s
  = tensor_zip g out out_shape out_strides
      b_storage b_shape b_strides a_storage a_shape a_strides s.
Proof.
  unfold tensor_zip.
  assert (bool_decide (b_shape = a_shape) && bool_decide (b_shape = out_shape)
            && bool_decide (a_shape = out_shape)
          = bool_decide (a_shape = b_shape) && bool_decide (a_shape = out_shape)
            && bool_decide (b_shape = out_shape)) as ->.
  { repeat case_bool_decide; simpl; congruence. }
  destruct (bool_decide (a_shape = b_shape) && _ && _).
  - rewrite !tensor_zip_fast_unfold. unfold for_range.
    apply for_each_ext. intros i u s' _. apply zip_fast_body_swap.
  - rewrite !tensor_zip_general_unfold. unfold for_range.
    apply related_discard with (R := swapped).
    apply for_each_related; [|done].
    intros i acc1 acc2 s' _. apply zip_general_body_swap.
Qed.

End ZipSwap.

Lemma broadcast_rev_comm a b : broadcast_rev a b = broadcast_rev b a.
Proof.
  revert b. induction a as [|x a IH]; intros [|y b]; cbn [broadcast_rev]; try done.
  rewrite IH, (Nat.max_comm x y).
  destruct (decide (x = y \/ x = 1 \/ y = 1)), (decide (y = x \/ y = 1 \/ x = 1));
    try done; exfalso; intuition lia.
Qed.

Lemma shape_broadcast_comm a b : shape_broadcast a b = shape_broadcast b a.
Proof. unfold shape_broadcast. now rewrite broadcast_rev_comm. Qed.

(** [SimpleOps.zip] with the operands exchanged and the function flipped. *)
Lemma SimpleOps_zip_swap fn g a b s :
  (forall x y, fn x y = g y x) ->
  SimpleOps.zip fn a b s = SimpleOps.zip g b a s.
Proof.
  intros Hfg. unfold SimpleOps.zip.
  assert ((if bool_decide (shape a ≠ shape b)
           then shape_broadcast (shape a) (shape b) else mret (shape a))
          = (if bool_decide (shape b ≠ shape a)
             then shape_broadcast (shape b) (shape a) else mret (shape b))) as ->.
  { destruct (decide (shape a = shape b)) as [E|E].
    - rewrite !bool_decide_eq_false_2 by (intros H; apply H; congruence).
      now rewrite E.
    - rewrite !bool_decide_eq_true_2 by congruence.
      apply shape_broadcast_comm. }
  munfold.
  match goal with
  | |- context [(if ?c then ?x else ?y) s] =>
      destruct ((if c then x else y) s) as [[e|c_shape] s1]; [done|]
  end.
  rewrite zeros_run. cbn [storage shape strides].
  now rewrite (tensor_zip_swap fn g Hfg).
Qed.

(** ** Float addition *)

Lemma SFadd_comm prec emax x y : SFadd prec emax x y = SFadd prec emax y x.
Proof.
  destruct x as [sx|sx| |sx mx ex], y as [sy|sy| |sy my ey]; try reflexivity.
  - now destruct sx, sy.
  - now destruct sx, sy.
  - unfold SFadd. now rewrite Z.min_comm, Z.add_comm.
Qed.

(** IEEE addition is commutative, NaN included: Rocq's floats have one
    NaN. *)
Lemma float_add_comm (x y : float) : (x + y)%float = (y + x)%float.
Proof.
  apply Prim2SF_inj. rewrite !add_spec. apply SFadd_comm.
Qed.

(** C7, zip with addition: [add_zip(a, b)] and [add_zip(b, a)] end the
    same way, return the same tensor and leave the same heap, so the two
    results hold the same value at every output position; this holds for
    all pairs of tensors, those with broadcast-compatible shapes among
    them. *)
Theorem add_zip_commutes (o : operators.others) (a b : Tensor) (s : state) :
  TensorBackend.add_zip (SimpleBackend o) a b s
  = TensorBackend.add_zip (SimpleBackend o) b a s.
Proof.
  cbn [SimpleBackend TensorBackend.init TensorBackend.add_zip TensorOps.zip SimpleOps.ops].
  apply SimpleOps_zip_swap. intros x y. apply float_add_comm.
Qed.

(** The spec's broadcasting example: a (2,3) tensor plus a (1,3) row. *)
Example add_zip_row (o : operators.others) :
  let a := {| storage := 0; shape := [2; 3]; strides := [3; 1] |} in
  let b := {| storage := 1; shape := [1; 3]; strides := [3; 1] |} in
  let s := State [[1; 2; 3; 4; 5; 6]; [10; 20; 30]]%float [] in
  exists s',
    TensorBackend.add_zip (SimpleBackend o) a b s
      = (inr {| storage := 2; shape := [2; 3]; strides := [3; 1] |}, s') /\
    TensorBackend.add_zip (SimpleBackend o) b a s
      = (inr {| storage := 2; shape := [2; 3]; strides := [3; 1] |}, s') /\
    heap s' !! 2 = Some [11; 22; 33; 14; 25; 36]%float.
Proof. eexists. split; [|split]; reflexivity. Qed.

(** ** The operand index of the general branch *)

Lemma insert_take_drop {A} (target buf : list A) k x :
  target !! k = Some x -> k < length buf ->
  <[k := x]> (take k target ++ drop k buf) = take (S k) target ++ drop (S k) buf.
Proof.
  intros Ht Hk. pose proof (lookup_lt_Some _ _ _ Ht) as Hlt.
  rewrite insert_app_r_alt by (rewrite length_take; lia).
  rewrite length_take, Nat.min_l, Nat.sub_diag by lia.
  destruct (lookup_lt_is_Some_2 buf k Hk) as [y Hy].
  rewrite (drop_S _ _ _ Hy), (take_S_r _ _ _ Ht), <- app_assoc. reflexivity.
Qed.

(** The inlined loop of [_zip] computes the broadcast of [out_index] for an
    operand of the same rank. *)
Lemma zip_index_ok sh big out_index index s :
  length index = length sh -> length big = length sh ->
  length sh <= length out_index ->
  zip_index sh out_index index s = (inr (bcast_of out_index big sh), s).
Proof.
  intros Hidx Hbig Hoi. unfold zip_index, for_range.
  set (target := bcast_of out_index big sh).
  assert (length target = length sh) as Htl.
  { unfold target. rewrite bcast_of_imap. apply length_imap. }
  enough (forall k, k <= length sh ->
            for_each (seq 0 k)
              (fun i index =>
                 s0 ← get_item sh i;
                 if decide (s0 = 1) then set_item index i 0
                 else (v ← get_item out_index i; set_item index i v)) index s
            = (inr (take k target ++ drop k index), s)) as H.
  { rewrite H by done. rewrite take_ge, drop_ge by lia. now rewrite app_nil_r. }
  induction k as [|k IH]; intros Hk.
  - now rewrite drop_0.
  - rewrite seq_S, for_each_app. erewrite bind_ok by (apply IH; lia).
    cbn [Nat.add]. rewrite for_each_cons.
    destruct (lookup_lt_is_Some_2 sh k) as [d Hd]; [lia|].
    destruct (lookup_lt_is_Some_2 out_index k) as [v Hv]; [lia|].
    assert (target !! k = Some (if decide (d = 1) then 0 else v)) as Ht.
    { unfold target. rewrite bcast_of_imap, list_lookup_imap, Hd. cbn.
      rewrite Hbig, Nat.sub_diag, Nat.add_0_r, Hv. reflexivity. }
    assert (k < length (take k target ++ drop k index)) as Hlen.
    { rewrite length_app, length_take, length_drop. lia. }
    erewrite bind_ok; [reflexivity|].
    unfold get_item, set_item. rewrite Hd. munfold.
    destruct (decide (d = 1)) as [_|_].
    + rewrite decide_True by done. now rewrite <- insert_take_drop with (x := 0) by (done || lia).
    + rewrite Hv. rewrite decide_True by done.
      now rewrite <- insert_take_drop with (x := v) by (done || lia).
Qed.

(** ** The fast branch against the general one *)

Section ZipFast.

Context (fn : float -> float -> float).
Context (out : loc) (sh out_strides : list nat).
Context (a_storage : loc) (a_strides : list nat).
Context (b_storage : loc) (b_strides : list nat).

Lemma zip_bodies_agree i u acc s :
  i < prod sh -> general_buffers sh sh sh acc ->
  related (fun _ : unit => general_buffers sh sh sh)
    (zip_fast_body fn out sh out_strides a_storage a_strides b_storage b_strides i u s)
    (zip_general_body fn out sh out_strides a_storage sh a_strides b_storage sh b_strides
       i acc s).
Proof.
  destruct acc as [[oi ai] bi]. intros Hi (Hoi & Hai & Hbi).
  unfold zip_fast_body, zip_general_body.
  rewrite (to_index_buffer _ _ _ Hoi). fold (index_of i sh).
  pose proof (index_of_valid _ _ Hi) as Hv.
  pose proof (index_of_length i sh) as Hl.
  erewrite (bind_ok (zip_index sh (index_of i sh) ai));
    [|apply (zip_index_ok sh sh); (done || lia)].
  erewrite (bind_ok (zip_index sh (index_of i sh) bi));
    [|apply (zip_index_ok sh sh); (done || lia)].
  rewrite (bcast_of_same _ _ Hv).
  munfold. rewrite ?load_peek.
  destruct (peek s a_storage _) as [x|]; cbn [outcome]; [|done].
  destruct (peek s b_storage _) as [y|]; cbn [outcome]; [|done].
  destruct (store out _ (fn x y) s) as [[e|[]] s']; cbn; done.
Qed.

(** On equal shapes the fast branch and the general branch are the same
    computation: same exception or same return, same heap, same trace of
    writes. *)
Lemma zip_fast_general s :
  tensor_zip_fast fn out sh out_strides a_storage a_strides b_storage b_strides s
  = tensor_zip_general fn out sh out_strides a_storage sh a_strides b_storage sh b_strides s.
Proof.
  rewrite tensor_zip_fast_unfold, tensor_zip_general_unfold. unfold for_range.
  etrans; [symmetry; apply discard_unit|].
  apply related_discard with (R := fun _ : unit => general_buffers sh sh sh).
  apply for_each_related.
  - intros i u acc s' Hi. apply elem_of_seq in Hi. apply zip_bodies_agree. lia.
  - repeat split; apply length_replicate.
Qed.

End ZipFast.

(** C3, tensor_zip: when [a_shape == b_shape == out_shape], the fast path
    that [_zip] takes and the general broadcasting path run on the same
    arguments perform the same writes (same positions, same values, same
    order) and leave the same heap, for all strides and storages. *)
Theorem tensor_zip_fast_path_agrees
    (fn : float -> float -> float) (out : loc) (out_shape out_strides : list nat)
    (a_storage : loc) (a_strides : list nat)
    (b_storage : loc) (b_strides : list nat) (s : state) :
  tensor_zip fn out out_shape out_strides
    a_storage out_shape a_strides b_storage out_shape b_strides s
  = tensor_zip_fast fn out out_shape out_strides a_storage a_strides b_storage b_strides s
  /\
  tensor_zip_fast fn out out_shape out_strides a_storage a_strides b_storage b_strides s
  = tensor_zip_general fn out out_shape out_strides
      a_storage out_shape a_strides b_storage out_shape b_strides s.
Proof.
  split.
  - unfold tensor_zip. now rewrite !bool_decide_eq_true_2 by done.
  - apply zip_fast_general.
Qed.

(** ** A run of [_zip] that stays inside the storages *)

Section ZipLoop.

Context (fn : float -> float -> float).
Context (out : loc) (out_shape out_strides : list nat).
Context (a_storage : loc) (a_shape a_strides : list nat).
Context (b_storage : loc) (b_shape b_strides : list nat).
Context (h0 : list (list float)) (av bv : list float) (n : nat).
Hypothesis Hout_a : out ≠ a_storage.
Hypothesis Hout_b : out ≠ b_storage.
Hypothesis Ha : h0 !! a_storage = Some av.
Hypothesis Hb : h0 !! b_storage = Some bv.
Hypothesis Hrank_a : length a_shape = length out_shape.
Hypothesis Hrank_b : length b_shape = length out_shape.

Lemma zip_general_body_stores i :
  out_position out_shape out_strides i < n ->
  in_position out_shape a_shape a_strides i < length av ->
  in_position out_shape b_shape b_strides i < length bv ->
  stores_at (zip_general_body fn out out_shape out_strides
               a_storage a_shape a_strides b_storage b_shape b_strides)
    out h0 n (general_buffers out_shape a_shape b_shape)
    (out_position out_shape out_strides)
    (fun i => fn (av !!! in_position out_shape a_shape a_strides i)
                 (bv !!! in_position out_shape b_shape b_strides i)) i.
Proof.
  intros Ho Hpa Hpb [[oi ai] bi] s arr (Hoi & Hai & Hbi) [Hlen Hfr] Hout Harr.
  exists (index_of i out_shape, bcast_of (index_of i out_shape) out_shape a_shape,
          bcast_of (index_of i out_shape) out_shape b_shape).
  split.
  { repeat split; [apply index_of_length| |]; rewrite bcast_of_imap; apply length_imap. }
  unfold zip_general_body. rewrite (to_index_buffer _ _ _ Hoi).
  pose proof (index_of_length i out_shape) as Hl.
  erewrite (bind_ok (zip_index a_shape _ ai));
    [|apply (zip_index_ok a_shape out_shape); (done || lia)].
  erewrite (bind_ok (zip_index b_shape _ bi));
    [|apply (zip_index_ok b_shape out_shape); (done || lia)].
  fold (out_position out_shape out_strides i).
  fold (in_position out_shape a_shape a_strides i).
  fold (in_position out_shape b_shape b_strides i).
  assert (heap s !! a_storage = Some av) as Hsa by (rewrite Hfr; auto).
  assert (heap s !! b_storage = Some bv) as Hsb by (rewrite Hfr; auto).
  rewrite (bind_ok _ _ _ _ _ (load_ok _ _ _ _ Hsa Hpa)).
  rewrite (bind_ok _ _ _ _ _ (load_ok _ _ _ _ Hsb Hpb)).
  erewrite bind_ok; [reflexivity|].
  apply store_ok; [done|lia].
Qed.

End ZipLoop.

Lemma tensor_zip_general_run fn out out_shape out_strides
    a_storage a_shape a_strides b_storage b_shape b_strides s ov av bv :
  out ≠ a_storage -> out ≠ b_storage ->
  heap s !! out = Some ov ->
  heap s !! a_storage = Some av ->
  heap s !! b_storage = Some bv ->
  length a_shape = length out_shape ->
  length b_shape = length out_shape ->
  (forall i, i < prod out_shape ->
     out_position out_shape out_strides i < length ov /\
     in_position out_shape a_shape a_strides i < length av /\
     in_position out_shape b_shape b_strides i < length bv) ->
  let p := out_position out_shape out_strides in
  let v i := fn (av !!! in_position out_shape a_shape a_strides i)
                (bv !!! in_position out_shape b_shape b_strides i) in
  tensor_zip_general fn out out_shape out_strides
    a_storage a_shape a_strides b_storage b_shape b_strides s
  = (inr tt, State (<[out := apply_writes p v ov (seq 0 (prod out_shape))]> (heap s))
                   (log s ++ writes_of out p v (seq 0 (prod out_shape)))).
Proof.
  intros Hna Hnb Hout Ha Hb Hra Hrb Hpos p v.
  rewrite tensor_zip_general_unfold. unfold for_range.
  edestruct (for_each_stores
               (zip_general_body fn out out_shape out_strides
                  a_storage a_shape a_strides b_storage b_shape b_strides)
               out (heap s) (length ov) (general_buffers out_shape a_shape b_shape)
               p v (seq 0 (prod out_shape)))
    with (acc := (replicate (length out_shape) 0, replicate (length a_shape) 0,
                  replicate (length b_shape) 0))
         (s := s) (arr := ov)
    as (acc' & _ & E).
  - intros i Hi. apply elem_of_seq in Hi.
    apply (zip_general_body_stores fn out out_shape out_strides
             a_storage a_shape a_strides b_storage b_shape b_strides
             (heap s) av bv (length ov) Hna Hnb Ha Hb Hra Hrb i); apply Hpos; lia.
  - repeat split; apply length_replicate.
  - apply frame_refl.
  - exact Hout.
  - reflexivity.
  - erewrite bind_ok by exact E. reflexivity.
Qed.

(** The same for [_zip] itself, whichever branch it takes. *)
Lemma tensor_zip_run fn out out_shape out_strides
    a_storage a_shape a_strides b_storage b_shape b_strides s ov av bv :
  out ≠ a_storage -> out ≠ b_storage ->
  heap s !! out = Some ov ->
  heap s !! a_storage = Some av ->
  heap s !! b_storage = Some bv ->
  length a_shape = length out_shape ->
  length b_shape = length out_shape ->
  (forall i, i < prod out_shape ->
     out_position out_shape out_strides i < length ov /\
     in_position out_shape a_shape a_strides i < length av /\
     in_position out_shape b_shape b_strides i < length bv) ->
  let p := out_position out_shape out_strides in
  let v i := fn (av !!! in_position out_shape a_shape a_strides i)
                (bv !!! in_position out_shape b_shape b_strides i) in
  tensor_zip fn out out_shape out_strides
    a_storage a_shape a_strides b_storage b_shape b_strides s
  = (inr tt, State (<[out := apply_writes p v ov (seq 0 (prod out_shape))]> (heap s))
                   (log s ++ writes_of out p v (seq 0 (prod out_shape)))).
Proof.
  intros Hna Hnb Hout Ha Hb Hra Hrb Hpos p v. unfold tensor_zip.
  destruct (bool_decide (a_shape = b_shape) && bool_decide (a_shape = out_shape)
            && bool_decide (b_shape = out_shape)) eqn:Hc.
  - apply andb_prop in Hc as [Hc Hbo]. apply andb_prop in Hc as [_ Hao].
    apply bool_decide_eq_true_1 in Hbo, Hao. subst a_shape b_shape.
    rewrite zip_fast_general. now apply tensor_zip_general_run.
  - now apply tensor_zip_general_run.
Qed.

(** * SimpleOps.map and the identity *)

(** What [SimpleOps.map(fn)(a)] returns when no output tensor is passed: a
    new row-major tensor of the shape of [a] holding [fn] of each cell. *)
Lemma SimpleOps_map_run fn a s av :
  tensor_in s a av ->
  let v i := fn (cell av a (index_of i (shape a))) in
  SimpleOps.map fn a None s
  = (inr {| storage := length (heap s); shape := shape a;
            strides := strides_from_shape (shape a) |},
     State (heap s ++ [v <$> seq 0 (prod (shape a))])
           (log s ++ writes_of (length (heap s)) (fun i => i) v (seq 0 (prod (shape a))))).
Proof.
  intros [Ha Hb] v. unfold SimpleOps.map.
  rewrite (bind_ok _ _ _ _ _ (zeros_run (shape a) s)). cbn [storage shape strides].
  set (l := length (heap s)). set (n := prod (shape a)).
  assert (storage a < l) as Hlt by (eapply lookup_lt_Some, Ha).
  assert (forall i, i < n ->
            out_position (shape a) (strides_from_shape (shape a)) i = i /\
            in_position (shape a) (shape a) (strides a) i
            = index_to_position (index_of i (shape a)) (strides a)) as Hpos.
  { intros i Hi. split; [now apply out_position_row_major|].
    unfold in_position. now rewrite bcast_of_same by now apply index_of_valid. }
  erewrite bind_ok; cycle 1.
  { apply tensor_map_run with (ov := replicate n 0%float) (iv := av).
    - unfold l. lia.
    - cbn [heap]. unfold l. now apply list_lookup_middle.
    - cbn [heap]. rewrite lookup_app_l by done. exact Ha.
    - intros i Hi. destruct (Hpos i Hi) as [-> ->]. rewrite length_replicate.
      split; [done|]. apply Hb. now apply index_of_valid. }
  cbn [heap log]. unfold mret, M_ret, ret. f_equal. f_equal.
  - unfold l. rewrite heap_alloc_insert. f_equal. f_equal.
    apply apply_writes_all; [apply length_replicate|].
    intros i Hi. destruct (Hpos i Hi) as [-> ->]. done.
  - f_equal. apply writes_of_ext.
    intros i Hi. apply elem_of_seq in Hi.
    destruct (Hpos i) as [-> ->]; [lia|done].
Qed.

(** One application of [id_map]: the result has the shape of the input
    and the same value at every index. *)
Lemma id_map_once o a s av :
  tensor_in s a av ->
  exists out s' ov,
    TensorBackend.id_map (SimpleBackend o) a None s = (inr out, s') /\
    shape out = shape a /\
    tensor_in s' out ov /\
    forall index, valid_index index (shape a) -> cell ov out index = cell av a index.
Proof.
  intros Ha. eexists _, _, _. split; [|split; [|split; [split|]]].
  - apply (SimpleOps_map_run operators.id a s av Ha).
  - reflexivity.
  - cbn [storage heap]. now apply list_lookup_middle.
  - cbn [shape strides]. rewrite length_fmap, length_seq. apply in_bounds_row_major.
  - intros idx Hv. unfold cell at 1. cbn [strides].
    pose proof (position_bound _ _ Hv) as Hlt.
    apply list_lookup_total_correct.
    rewrite list_lookup_fmap, lookup_seq_lt by done.
    cbn [Nat.add fmap option_fmap option_map]. unfold operators.id.
    now rewrite index_of_position_inv.
Qed.

(** C6, map with the identity: [id_map(a)] has the shape of [a] and, at
    every multi-dimensional index, the value [a] has there, whatever the
    strides of [a]; applying [id_map] to that result gives a tensor with
    the same value at every index again. *)
Theorem id_map_elementwise (o : operators.others) (a : Tensor) (s : state)
    (av : list float) :
  tensor_in s a av ->
  exists out s' ov,
    TensorBackend.id_map (SimpleBackend o) a None s = (inr out, s') /\
    shape out = shape a /\
    tensor_in s' out ov /\
    (forall index, valid_index index (shape a) -> cell ov out index = cell av a index) /\
    exists out2 s'' ov2,
      TensorBackend.id_map (SimpleBackend o) out None s' = (inr out2, s'') /\
      shape out2 = shape a /\
      tensor_in s'' out2 ov2 /\
      (forall index, valid_index index (shape a) ->
         cell ov2 out2 index = cell ov out index).
Proof.
  intros Ha.
  destruct (id_map_once o a s av Ha) as (out & s' & ov & E & Hs & Ho & Hc).
  destruct (id_map_once o out s' ov Ho) as (out2 & s'' & ov2 & E2 & Hs2 & Ho2 & Hc2).
  exists out, s', ov. repeat split; try done; try apply Ho.
  exists out2, s'', ov2. repeat split; try done; try apply Ho2.
  - congruence.
  - intros idx Hv. apply Hc2. now rewrite Hs.
Qed.

Lemma id_map_elementwise_witness :
  exists out s' ov,
    TensorBackend.id_map
      (SimpleBackend (operators.Build_others id id id id id
                        (fun x _ => x) (fun x _ => x) (fun x _ => x)
                        (fun x _ => x) (fun x _ => x) (fun x _ => x)))
      {| storage := 0; shape := [2; 3]; strides := [1; 2] |} None
      (State [[1; 2; 3; 4; 5; 6]%float] []) = (inr out, s') /\
    heap s' !! storage out = Some ov /\
    ov = [1; 3; 5; 2; 4; 6]%float.
Proof.
  destruct (id_map_elementwise
              (operators.Build_others id id id id id
                 (fun x _ => x) (fun x _ => x) (fun x _ => x)
                 (fun x _ => x) (fun x _ => x) (fun x _ => x))
              {| storage := 0; shape := [2; 3]; strides := [1; 2] |}
              (State [[1; 2; 3; 4; 5; 6]%float] []) [1; 2; 3; 4; 5; 6]%float)
    as (out & s' & ov & E & _ & [Ho _] & _).
  - split; [reflexivity|]. apply in_bounds_max. simpl. lia.
  - exists out, s', ov. split; [exact E|]. split; [exact Ho|].
    vm_compute in E. injection E as <- <-. vm_compute in Ho. congruence.
Defined.

(** * Writes and frame of one invocation *)

Lemma exact_layout_positions sh st n :
  exact_layout sh st n -> out_position sh st <$> seq 0 n ≡ₚ seq 0 n.
Proof.
  intros (-> & Hb & Hinj).
  apply submseteq_length_Permutation; [|now rewrite length_fmap].
  apply NoDup_submseteq.
  - apply NoDup_fmap_2_strong; [|apply NoDup_seq].
    intros i j Hi Hj E. apply elem_of_seq in Hi, Hj.
    apply Hinj in E; [|apply index_of_valid; lia..].
    rewrite <- (index_of_position i sh), <- (index_of_position j sh) by lia.
    now rewrite E.
  - intros q Hq. apply list_elem_of_fmap in Hq as (i & -> & Hi).
    apply elem_of_seq in Hi. apply elem_of_seq. split; [lia|].
    apply Hb, index_of_valid. lia.
Qed.

Lemma stores_frame out p v arr n s :
  p <$> seq 0 n ≡ₚ seq 0 n ->
  let s' := State (<[out := arr]> (heap s)) (log s ++ writes_of out p v (seq 0 n)) in
  writes_each_cell_once out n s s' /\ others_unchanged out s s'.
Proof.
  intros Hp s'. split.
  - exists (writes_of out p v (seq 0 n)). split; [done|]. split.
    + unfold writes_of. apply Forall_fmap, Forall_forall. done.
    + unfold writes_of. rewrite <- list_fmap_compose. exact Hp.
  - split; cbn [heap s']; [apply length_insert|].
    intros l Hl. now apply list_lookup_insert_ne.
Qed.

(** C8, frame of one invocation: a call of [tensor_map], [tensor_zip] or
    [tensor_reduce] whose preconditions hold runs to completion, its
    element writes all go to the output storage and hit every position of
    it exactly once, and every other storage of the heap, the inputs among
    them, is left as it was. *)
Theorem invocation_writes_output_once (c : invocation) (s : state) :
  valid_call c s ->
  exists s' ov,
    invoke c s = (inr tt, s') /\
    heap s !! output_of c = Some ov /\
    writes_each_cell_once (output_of c) (length ov) s s' /\
    others_unchanged (output_of c) s s'.
Proof.
  destruct c as [fn out osh ost i ish ist
                |fn out osh ost a ash ast b bsh bst
                |fn out osh ost a ash ast dim]; cbn [valid_call invoke output_of].
  - intros ((ov & Ho & Hex) & (Hne & iv & Hi & Hbi) & Hbr).
    pose proof Hex as (Hn & Hbo & _).
    eexists _, ov. split; [|split; [exact Ho|]].
    + apply tensor_map_run with (ov := ov) (iv := iv); try done.
      now apply map_positions.
    + rewrite <- Hn. apply stores_frame. now apply exact_layout_positions.
  - intros ((ov & Ho & Hex) & (Hna & av & Ha & Hba) & (Hnb & bv & Hb & Hbb)
            & Hbra & Hra & Hbrb & Hrb).
    pose proof Hex as (Hn & Hbo & _).
    eexists _, ov. split; [|split; [exact Ho|]].
    + apply tensor_zip_run with (ov := ov) (av := av) (bv := bv); try done.
      intros j Hj.
      destruct (map_positions osh ost ash ast _ _ Hbra Hbo Hba j Hj) as [? ?].
      destruct (map_positions osh ost bsh bst _ _ Hbrb Hbo Hbb j Hj) as [_ ?].
      done.
    + rewrite <- Hn. apply stores_frame. now apply exact_layout_positions.
  - intros ((ov & Ho & Hex) & (Hne & av & Ha & Hba) & d & Hd & ->).
    pose proof Hex as (Hn & Hbo & _).
    destruct (lookup_lt_is_Some_2 ash d (py_index_lt _ _ _ Hd)) as [ds Hds].
    eexists _, ov. split; [|split; [exact Ho|]].
    + apply tensor_reduce_run with (d := d) (dim_size := ds) (ov := ov) (av := av);
        try done.
      * apply length_insert.
      * intros j Hj. apply Hbo, index_of_valid. lia.
      * intros j k Hj Hk. apply Hba.
        apply valid_index_reduce with (ds := ds); [|done..].
        apply index_of_valid. lia.
    + apply stores_frame. now apply exact_layout_positions.
Qed.

Lemma exact_layout_row_major sh : exact_layout sh (strides_from_shape sh) (prod sh).
Proof.
  split; [done|]. split; [apply in_bounds_row_major|].
  intros idx idx' Hv Hv' E.
  rewrite <- (index_of_position_inv idx sh), <- (index_of_position_inv idx' sh) by done.
  now rewrite E.
Qed.

Lemma invocation_writes_output_once_witness :
  let s := State [[1; 2; 3; 4; 5; 6]; [10; 20; 30]; [0; 0; 0; 0; 0; 0]]%float [] in
  exists s',
    invoke (Zip operators.add 2 [2; 3] [3; 1] 0 [2; 3] [3; 1] 1 [1; 3] [3; 1]) s
      = (inr tt, s') /\
    writes_each_cell_once 2 6 s s' /\
    others_unchanged 2 s s'.
Proof.
  intros s.
  destruct (invocation_writes_output_once
              (Zip operators.add 2 [2; 3] [3; 1] 0 [2; 3] [3; 1] 1 [1; 3] [3; 1]) s)
    as (s' & ov & E & Ho & Hw & Hf).
  - cbn [valid_call]. repeat split.
    + eexists. split; [reflexivity|]. apply (exact_layout_row_major [2; 3]).
    + lia.
    + eexists. split; [reflexivity|]. apply in_bounds_max. simpl. lia.
    + lia.
    + eexists. split; [reflexivity|]. apply in_bounds_max. simpl. lia.
    + simpl. lia.
    + intros i d H. right. now rewrite Nat.sub_diag, Nat.add_0_r.
    + simpl. lia.
    + intros [|[|i]] d H; simpl in H; try discriminate;
        injection H as <-; [left|right]; reflexivity.
  - injection Ho as <-. exists s'. split; [exact E|]. split; [exact Hw|exact Hf].
Defined.

(** * The backend table *)

(** C9, matrix multiply: [SimpleOps.matrix_multiply], the base
    [TensorOps.matrix_multiply] and the [matrix_multiply] entry of the
    bound backend raise NotImplementedError for every pair of tensors, in
    every state, and leave the state as it was. *)
Theorem matrix_multiply_not_implemented
    (o : operators.others) (a b : Tensor) (s : state) :
  SimpleOps.matrix_multiply a b s = (inl NotImplementedError, s) /\
  TensorOps_matrix_multiply a b s = (inl NotImplementedError, s) /\
  TensorBackend.matrix_multiply (SimpleBackend o) a b s = (inl NotImplementedError, s).
Proof. repeat split. Qed.

(** ** Summing a row of ones *)

(** The spec's example: shape (1,4), storage [1,1,1,1], reduced along
    dimension 1 with addition and start 0.0, gives shape (1,1), storage
    [4]. *)
Example add_reduce_four_ones (o : operators.others) :
  exists s',
    TensorBackend.add_reduce (SimpleBackend o)
      {| storage := 0; shape := [1; 4]; strides := [4; 1] |} 1
      (State [[1; 1; 1; 1]%float] [])
    = (inr {| storage := 1; shape := [1; 1]; strides := [1; 1] |}, s') /\
    heap s' !! 1 = Some [4%float].
Proof. eexists. split; reflexivity. Qed.

(** For [N >= 1] ones the cell holds the first element plus each of the
    [N - 1] others, added from the left. *)
Lemma add_reduce_ones (o : operators.others) (N : nat) (s : state) (l : loc) :
  1 <= N ->
  heap s !! l = Some (replicate N 1%float) ->
  exists s',
    TensorBackend.add_reduce (SimpleBackend o)
      {| storage := l; shape := [1; N]; strides := [N; 1] |} 1 s
    = (inr {| storage := length (heap s); shape := [1; 1]; strides := [1; 1] |}, s') /\
    heap s' !! length (heap s)
    = Some [foldl operators.add 1%float (replicate (N - 1) 1%float)].
Proof.
  intros HN Hl.
  pose proof (SimpleOps_reduce_run operators.add 0%float
                {| storage := l; shape := [1; N]; strides := [N; 1] |} 1 1 N s
                (replicate N 1%float)) as E.
  cbn [shape strides storage] in E.
  eexists. split.
  - apply E; [|done..]. split; [exact Hl|].
    rewrite length_replicate. apply in_bounds_max.
    cbn [fmap list_fmap index_to_position shape strides]. simpl Nat.pred. lia.
  - cbn [heap]. rewrite list_lookup_middle by done. f_equal.
    cbn [prod list_insert insert Nat.mul].
    change (seq 0 (1 + 0 + 0)) with [0]. cbn [fmap list_fmap].
    f_equal. rewrite reduce_value_first by done.
    change (index_of 0 [1; 1]) with [0; 0].
    cbn [list_insert insert index_to_position Nat.mul Nat.add].
    rewrite lookup_total_replicate_2 by lia. f_equal.
    replace (replicate (N - 1) 1%float)
      with ((fun _ : nat => 1%float) <$> seq 1 (N - 1)).
    + apply list_fmap_ext. intros i k Hk. apply lookup_seq in Hk as [-> Hk].
      apply lookup_total_replicate_2. lia.
    + generalize (N - 1) as m. generalize 1 as j.
      intros j m. revert j. induction m as [|m IH]; intros j; [done|].
      cbn. now rewrite IH.
Qed.

(** C5 at an empty row: reducing a tensor of shape (1,0) along dimension 1
    with addition and start 0.0 returns a tensor of shape (1,1) whose cell
    is not the start value 0.0 but what the assignment of [None] leaves, a
    NaN; the 0.0 that [SimpleOps.reduce] filled in is overwritten. *)
Theorem add_reduce_empty_row (o : operators.others) :
  TensorBackend.add_reduce (SimpleBackend o)
    {| storage := 0; shape := [1; 0]; strides := [0; 1] |} 1 (State [[]] [])
  = (inr {| storage := 1; shape := [1; 1]; strides := [1; 1] |},
     State [[]; [None_as_float64]] [Write_ 1 0 None_as_float64])
  /\ PrimFloat.is_nan None_as_float64 = true
  /\ None_as_float64 ≠ 0%float.
Proof.
  split; [reflexivity|]. split; [reflexivity|].
  intros H. assert (PrimFloat.is_nan None_as_float64 = PrimFloat.is_nan 0%float) as E
    by now rewrite H.
  vm_compute in E. discriminate.
Qed.

(** * Further properties of the wrappers and procedures *)

(** ** SimpleOps.map on a fresh output *)

(** X1, SimpleOps.map without [out]: for any [fn] the call returns a new
    tensor, stored after every array of the heap, of the shape of [a] with
    row-major strides whatever the strides of [a], whose cell at every
    index is [fn] of the cell of [a] there; the arrays that existed are
    unchanged. *)
Theorem map_applies_fn (fn : float -> float) (a : Tensor) (s : state) (av : list float) :
  tensor_in s a av ->
  exists out s' ov,
    SimpleOps.map fn a None s = (inr out, s') /\
    storage out = length (heap s) /\
    shape out = shape a /\
    strides out = strides_from_shape (shape a) /\
    heap s' = heap s ++ [ov] /\
    length ov = prod (shape a) /\
    forall index, valid_index index (shape a) ->
      cell ov out index = fn (cell av a index).
Proof.
  intros Ha. eexists _, _, _. split; [apply (SimpleOps_map_run fn a s av Ha)|].
  cbn [storage shape strides heap]. repeat split.
  - now rewrite length_fmap, length_seq.
  - intros idx Hv. unfold cell at 1. cbn [strides].
    pose proof (position_bound _ _ Hv) as Hlt.
    apply list_lookup_total_correct.
    rewrite list_lookup_fmap, lookup_seq_lt by done.
    cbn [Nat.add fmap option_fmap option_map].
    now rewrite index_of_position_inv.
Qed.

Lemma map_applies_fn_witness :
  exists out s',
    SimpleOps.map operators.neg
      {| storage := 0; shape := [2; 2]; strides := [1; 2] |} None
      (State [[1; 2; 3; 4]%float] []) = (inr out, s') /\
    heap s' = [[1; 2; 3; 4]; [-1; -3; -2; -4]]%float.
Proof.
  destruct (map_applies_fn operators.neg
              {| storage := 0; shape := [2; 2]; strides := [1; 2] |}
              (State [[1; 2; 3; 4]%float] []) [1; 2; 3; 4]%float)
    as (out & s' & ov & E & _).
  - split; [reflexivity|]. apply in_bounds_max. simpl. lia.
  - exists out, s'. split; [exact E|].
    vm_compute in E. now injection E as <- <-.
Defined.

(** Two maps in a row, and one map of the composed function. *)
Lemma map_twice f g a s av :
  tensor_in s a av ->
  exists out1 s1 out2 s2,
    SimpleOps.map g a None s = (inr out1, s1) /\
    SimpleOps.map f out1 None s1 = (inr out2, s2) /\
    shape out2 = shape a /\
    strides out2 = strides_from_shape (shape a) /\
    heap s2 !! storage out2
    = Some ((fun i => f (g (cell av a (index_of i (shape a))))) <$> seq 0 (prod (shape a))).
Proof.
  intros Ha.
  pose proof (SimpleOps_map_run g a s av Ha) as E1. cbv zeta in E1.
  set (out1 := {| storage := length (heap s); shape := shape a;
                  strides := strides_from_shape (shape a) |}) in *.
  set (ov1 := (fun i => g (cell av a (index_of i (shape a)))) <$> seq 0 (prod (shape a))) in *.
  set (s1 := State (heap s ++ [ov1]) _) in E1.
  assert (tensor_in s1 out1 ov1) as H1.
  { split; [cbn; now apply list_lookup_middle|].
    cbn [shape strides out1]. unfold ov1. rewrite length_fmap, length_seq.
    apply in_bounds_row_major. }
  pose proof (SimpleOps_map_run f out1 s1 ov1 H1) as E2. cbv zeta in E2.
  eexists out1, s1, _, _. split; [exact E1|]. split; [exact E2|].
  cbn [shape strides storage heap out1]. split; [done|]. split; [done|].
  rewrite list_lookup_middle by done. f_equal.
  apply list_fmap_ext. intros k i Hi. apply lookup_seq in Hi as [-> Hi].
  f_equal. unfold cell. cbn [strides Nat.add].
  rewrite index_of_position by done.
  apply list_lookup_total_correct. unfold ov1.
  now rewrite list_lookup_fmap, lookup_seq_lt.
Qed.

(** X2, map fusion: mapping [g] and then [f] leaves, in the final tensor,
    the same storage contents, shape and strides as mapping the composed
    function once over the input. *)
Theorem map_fusion (f g : float -> float) (a : Tensor) (s : state) (av : list float) :
  tensor_in s a av ->
  exists out1 s1 out2 s2 out3 s3 ov,
    SimpleOps.map g a None s = (inr out1, s1) /\
    SimpleOps.map f out1 None s1 = (inr out2, s2) /\
    SimpleOps.map (fun x => f (g x)) a None s = (inr out3, s3) /\
    shape out2 = shape out3 /\ strides out2 = strides out3 /\
    heap s2 !! storage out2 = Some ov /\
    heap s3 !! storage out3 = Some ov.
Proof.
  intros Ha.
  destruct (map_twice f g a s av Ha) as (out1 & s1 & out2 & s2 & E1 & E2 & Hs & Hst & Ho).
  eexists out1, s1, out2, s2, _, _, _.
  split; [exact E1|]. split; [exact E2|].
  split; [apply (SimpleOps_map_run (fun x => f (g x)) a s av Ha)|].
  cbn [shape strides storage heap].
  repeat split; [done|done|exact Ho|].
  now apply list_lookup_middle.
Qed.

Lemma map_fusion_witness :
  exists out2 s2 out3 s3,
    (exists out1 s1,
       SimpleOps.map operators.neg
         {| storage := 0; shape := [2; 2]; strides := [1; 2] |} None
         (State [[1; 2; 3; 4]%float] []) = (inr out1, s1) /\
       SimpleOps.map (fun x => x * 2)%float out1 None s1 = (inr out2, s2)) /\
    SimpleOps.map (fun x => - x * 2)%float
      {| storage := 0; shape := [2; 2]; strides := [1; 2] |} None
      (State [[1; 2; 3; 4]%float] []) = (inr out3, s3) /\
    heap s2 !! storage out2 = heap s3 !! storage out3.
Proof.
  destruct (map_fusion (fun x => x * 2)%float operators.neg
              {| storage := 0; shape := [2; 2]; strides := [1; 2] |}
              (State [[1; 2; 3; 4]%float] []) [1; 2; 3; 4]%float)
    as (out1 & s1 & out2 & s2 & out3 & s3 & ov & E1 & E2 & E3 & _ & _ & H2 & H3).
  - split; [reflexivity|]. apply in_bounds_max. simpl. lia.
  - exists out2, s2, out3, s3. split; [exists out1, s1; split; assumption|].
    split; [exact E3|]. now rewrite H2, H3.
Defined.

Lemma cell_row_major (v : nat -> float) (out : Tensor) sh idx :
  strides out = strides_from_shape sh ->
  valid_index idx sh ->
  cell (v <$> seq 0 (prod sh)) out idx
  = v (index_to_position idx (strides_from_shape sh)).
Proof.
  intros Hst Hv. unfold cell. rewrite Hst.
  pose proof (position_bound _ _ Hv) as Hlt.
  apply list_lookup_total_correct.
  now rewrite list_lookup_fmap, lookup_seq_lt.
Qed.

Lemma float_opp_involutive (x : float) : (- - x)%float = x.
Proof.
  apply Prim2SF_inj. rewrite !opp_spec.
  destruct (Prim2SF x); simpl; now rewrite ?negb_involutive.
Qed.

(** X3, negation twice: [neg_map(neg_map(a))] has the shape of [a] and, at
    every index, the value [a] has there. *)
Theorem neg_map_involution (o : operators.others) (a : Tensor) (s : state)
    (av : list float) :
  tensor_in s a av ->
  exists out1 s1 out2 s2 ov2,
    TensorBackend.neg_map (SimpleBackend o) a None s = (inr out1, s1) /\
    TensorBackend.neg_map (SimpleBackend o) out1 None s1 = (inr out2, s2) /\
    shape out2 = shape a /\
    heap s2 !! storage out2 = Some ov2 /\
    forall index, valid_index index (shape a) -> cell ov2 out2 index = cell av a index.
Proof.
  intros Ha.
  destruct (map_twice operators.neg operators.neg a s av Ha)
    as (out1 & s1 & out2 & s2 & E1 & E2 & Hs & Hst & Ho).
  eexists out1, s1, out2, s2, _. split; [exact E1|]. split; [exact E2|].
  split; [exact Hs|]. split; [exact Ho|].
  intros idx Hv. rewrite (cell_row_major _ out2 (shape a) idx Hst Hv).
  rewrite index_of_position_inv by done. apply float_opp_involutive.
Qed.

Lemma neg_map_involution_witness :
  exists out2 s2,
    (exists out1 s1,
       SimpleOps.map operators.neg
         {| storage := 0; shape := [2; 2]; strides := [2; 1] |} None
         (State [[1; 2; 3; 4]%float] []) = (inr out1, s1) /\
       SimpleOps.map operators.neg out1 None s1 = (inr out2, s2)) /\
    heap s2 !! storage out2 = Some [1; 2; 3; 4]%float.
Proof.
  destruct (neg_map_involution
              (operators.Build_others id id id id id
                 (fun x _ => x) (fun x _ => x) (fun x _ => x)
                 (fun x _ => x) (fun x _ => x) (fun x _ => x))
              {| storage := 0; shape := [2; 2]; strides := [2; 1] |}
              (State [[1; 2; 3; 4]%float] []) [1; 2; 3; 4]%float)
    as (out1 & s1 & out2 & s2 & ov2 & E1 & E2 & _ & Ho & _).
  - split; [reflexivity|]. apply in_bounds_max. simpl. lia.
  - exists out2, s2. split; [exists out1, s1; split; assumption|].
    cbn in E1. vm_compute in E1. injection E1 as <- <-.
    cbn in E2. vm_compute in E2. now injection E2 as <- <-.
Defined.

(** ** SimpleOps.map into a given output *)

Lemma apply_writes_lookup_ne p v arr l q :
  (forall j, j ∈ l -> p j ≠ q) -> apply_writes p v arr l !! q = arr !! q.
Proof.
  revert arr. induction l as [|i l IH]; intros arr H; [done|].
  unfold apply_writes in *. cbn [foldl]. rewrite IH.
  - apply list_lookup_insert_ne. apply H, list_elem_of_here.
  - intros j Hj. apply H. now apply list_elem_of_further.
Qed.

(** With positions that do not collide, each write is still there at the
    end. *)
Lemma apply_writes_lookup p v arr l i :
  NoDup (p <$> l) -> i ∈ l -> p i < length arr ->
  apply_writes p v arr l !! p i = Some (v i).
Proof.
  revert arr. induction l as [|j l IH]; intros arr Hnd Hi Hlt.
  - now apply elem_of_nil in Hi.
  - rewrite fmap_cons in Hnd. apply NoDup_cons in Hnd as [Hj Hnd].
    unfold apply_writes in *. cbn [foldl].
    destruct (decide (p i = p j)) as [E|E].
    + assert (v i = v j /\ p j ∉ p <$> l) as [-> _].
      { split; [|done]. apply elem_of_cons in Hi as [->|Hi]; [done|].
        exfalso. apply Hj. rewrite <- E. now apply list_elem_of_fmap_2. }
      rewrite E. fold (apply_writes p v (<[p j := v j]> arr) l).
      rewrite apply_writes_lookup_ne.
      * apply list_lookup_insert_eq. lia.
      * intros k Hk Ek. apply Hj. rewrite <- Ek. now apply list_elem_of_fmap_2.
    + apply elem_of_cons in Hi as [->|Hi]; [done|].
      apply IH; [done..|]. now rewrite length_insert.
Qed.

(** Under an exact layout the positions of the ordinals do not collide. *)
Lemma exact_layout_NoDup sh st n :
  exact_layout sh st n -> NoDup (out_position sh st <$> seq 0 n).
Proof.
  intros H. rewrite (exact_layout_positions _ _ _ H). apply NoDup_seq.
Qed.

(** The cell of an index after a storing loop over all ordinals. *)
Lemma apply_writes_cell v arr (out : Tensor) idx :
  exact_layout (shape out) (strides out) (length arr) ->
  valid_index idx (shape out) ->
  cell (apply_writes (out_position (shape out) (strides out)) v arr
          (seq 0 (prod (shape out)))) out idx
  = v (index_to_position idx (strides_from_shape (shape out))).
Proof.
  intros Hex Hv. pose proof Hex as (Hn & Hb & _).
  pose proof (position_bound _ _ Hv) as Hlt.
  set (i := index_to_position idx (strides_from_shape (shape out))) in *.
  assert (out_position (shape out) (strides out) i = index_to_position idx (strides out))
    as Hp.
  { unfold out_position, i. now rewrite index_of_position_inv. }
  unfold cell. apply list_lookup_total_correct. rewrite <- Hp.
  apply apply_writes_lookup.
  - rewrite <- Hn. now apply exact_layout_NoDup.
  - apply elem_of_seq. lia.
  - rewrite Hp. now apply Hb.
Qed.

(** X4, SimpleOps.map with [out] given: when [out] is another storage
    whose layout addresses each of its cells once and the shape of [a]
    broadcasts to the shape of [out], the call returns [out] itself,
    allocates nothing, leaves every other array unchanged and sets the cell
    of [out] at every index to [fn] of the cell of [a] at the broadcast of
    that index. *)
Theorem map_into_out (fn : float -> float) (a out : Tensor) (s : state)
    (av ov : list float) :
  tensor_in s a av ->
  heap s !! storage out = Some ov ->
  exact_layout (shape out) (strides out) (length ov) ->
  storage out ≠ storage a ->
  broadcasts_to (shape a) (shape out) ->
  exists s' ov',
    SimpleOps.map fn a (Some out) s = (inr out, s') /\
    heap s' = <[storage out := ov']> (heap s) /\
    length ov' = length ov /\
    forall index, valid_index index (shape out) ->
      cell ov' out index = fn (cell av a (bcast_of index (shape out) (shape a))).
Proof.
  intros [Ha Hba] Ho Hex Hne Hbr. pose proof Hex as (Hn & Hbo & _).
  eexists _, _. split; [|split; [|split]].
  - unfold SimpleOps.map. unfold mret at 1, M_ret at 1.
    rewrite (bind_ok (ret out) _ s out s eq_refl).
    erewrite bind_ok; [reflexivity|].
    apply tensor_map_run with (ov := ov) (iv := av); try done.
    now apply map_positions.
  - reflexivity.
  - apply apply_writes_length.
  - intros idx Hv. rewrite apply_writes_cell by done.
    unfold in_position, cell. now rewrite index_of_position_inv.
Qed.

Lemma map_into_out_witness :
  exists s',
    SimpleOps.map operators.neg
      {| storage := 0; shape := [3]; strides := [1] |}
      (Some {| storage := 1; shape := [2; 3]; strides := [1; 2] |})
      (State [[10; 20; 30]; [0; 0; 0; 0; 0; 0]]%float [])
    = (inr {| storage := 1; shape := [2; 3]; strides := [1; 2] |}, s') /\
    heap s' = [[10; 20; 30]; [-10; -10; -20; -20; -30; -30]]%float.
Proof.
  destruct (map_into_out operators.neg
              {| storage := 0; shape := [3]; strides := [1] |}
              {| storage := 1; shape := [2; 3]; strides := [1; 2] |}
              (State [[10; 20; 30]; [0; 0; 0; 0; 0; 0]]%float [])
              [10; 20; 30]%float [0; 0; 0; 0; 0; 0]%float)
    as (s' & ov' & E & Hh & _).
  - split; [reflexivity|]. apply in_bounds_max. simpl. lia.
  - reflexivity.
  - split; [reflexivity|]. split; [apply in_bounds_max; simpl; lia|].
    intros idx idx' Hv Hv' E.
    inversion Hv as [|i d ? ? Hi Hv1]; subst. inversion Hv1 as [|j e ? ? Hj Hv2]; subst.
    inversion Hv2; subst.
    inversion Hv' as [|i' d' ? ? Hi' Hv1']; subst.
    inversion Hv1' as [|j' e' ? ? Hj' Hv2']; subst. inversion Hv2'; subst.
    cbn in E. f_equal; [|f_equal]; lia.
  - cbn. lia.
  - split; [simpl; lia|].
    intros [|i] d H; [injection H as <-; right; reflexivity|discriminate].
  - exists s'. split; [exact E|].
    vm_compute in E. now injection E as <-.
Defined.

(** ** SimpleOps.map in place *)

Section MapInPlace.

Context (fn : float -> float) (out : loc) (sh st : list nat).

Lemma map_body_in_place i acc s arr :
  map_buffers sh sh acc ->
  heap s !! out = Some arr ->
  i < prod sh ->
  out_position sh st i < length arr ->
  exists acc', map_buffers sh sh acc' /\
    map_body fn out sh st out sh st i acc s
    = (inr acc',
       State (<[out := <[out_position sh st i := fn (arr !!! out_position sh st i)]> arr]>
                (heap s))
             (log s ++ [Write_ out (out_position sh st i)
                          (fn (arr !!! out_position sh st i))])).
Proof.
  destruct acc as [oi ii]. intros [Hoi Hii] Hout Hi Hp. simpl in Hoi, Hii.
  exists (index_of i sh, bcast_of (index_of i sh) sh sh). split.
  { split; simpl; [apply index_of_length|].
    rewrite bcast_of_imap. apply length_imap. }
  unfold map_body.
  rewrite (to_index_buffer _ _ _ Hoi), (broadcast_index_buffer _ _ _ _ Hii).
  rewrite (bcast_of_same _ _ (index_of_valid _ _ Hi)).
  fold (out_position sh st i).
  rewrite (bind_ok _ _ _ _ _ (load_ok _ _ _ _ Hout Hp)).
  erewrite bind_ok; [reflexivity|].
  now apply store_ok.
Qed.

(** Reading and writing the same array: each iteration reads a cell no
    earlier iteration wrote, so the loop does what it would do on a copy. *)
Lemma map_loop_in_place l acc s arr :
  map_buffers sh sh acc ->
  heap s !! out = Some arr ->
  NoDup (out_position sh st <$> l) ->
  (forall i, i ∈ l -> i < prod sh /\ out_position sh st i < length arr) ->
  exists acc', map_buffers sh sh acc' /\
    for_each l (map_body fn out sh st out sh st) acc s
    = (inr acc',
       State (<[out := apply_writes (out_position sh st)
                         (fun i => fn (arr !!! out_position sh st i)) arr l]> (heap s))
             (log s ++ writes_of out (out_position sh st)
                         (fun i => fn (arr !!! out_position sh st i)) l)).
Proof.
  revert acc s arr. induction l as [|i l IH]; intros acc s arr Hacc Hout Hnd Hl.
  - exists acc. split; [done|]. simpl. unfold ret, writes_of. simpl.
    rewrite app_nil_r, list_insert_id by done. now destruct s.
  - rewrite fmap_cons in Hnd. apply NoDup_cons in Hnd as [Hi Hnd].
    destruct (Hl i (list_elem_of_here _ _)) as [Hlt Hp].
    destruct (map_body_in_place i acc s arr Hacc Hout Hlt Hp) as (acc1 & Hacc1 & E1).
    set (x := fn (arr !!! out_position sh st i)) in *.
    set (arr1 := <[out_position sh st i := x]> arr) in *.
    set (s1 := State _ _) in E1.
    assert (heap s1 !! out = Some arr1) as Hout1.
    { simpl. apply list_lookup_insert_eq. eapply lookup_lt_Some, Hout. }
    destruct (IH acc1 s1 arr1 Hacc1 Hout1 Hnd) as (acc2 & Hacc2 & E2).
    { intros j Hj. destruct (Hl j (list_elem_of_further _ _ _ Hj)) as [? ?].
      split; [done|]. unfold arr1. now rewrite length_insert. }
    exists acc2. split; [done|].
    rewrite for_each_cons, (bind_ok _ _ _ _ _ E1), E2. subst s1. simpl.
    rewrite list_insert_insert_eq, <- app_assoc. cbn [app]. fold x. fold arr1.
    assert (forall j, j ∈ l ->
              out_position sh st j = out_position sh st j /\
              fn (arr1 !!! out_position sh st j) = fn (arr !!! out_position sh st j))
      as Hsame.
    { intros j Hj. split; [done|]. f_equal. unfold arr1.
      apply list_lookup_total_insert_ne. intros E. apply Hi. rewrite E.
      now apply list_elem_of_fmap_2. }
    rewrite (apply_writes_ext _ _ _ _ arr1 l Hsame).
    rewrite (writes_of_ext out _ _ _ _ l Hsame). reflexivity.
Qed.

End MapInPlace.

(** X5, SimpleOps.map with [out] the input itself: for a tensor whose
    layout addresses each cell of its storage once, [map(fn)(a, a)] returns
    [a], allocates nothing, changes no other array and replaces the cell
    at every index by [fn] of the value it had. *)
Theorem map_in_place (fn : float -> float) (a : Tensor) (s : state) (av : list float) :
  heap s !! storage a = Some av ->
  exact_layout (shape a) (strides a) (length av) ->
  exists s' av',
    SimpleOps.map fn a (Some a) s = (inr a, s') /\
    heap s' = <[storage a := av']> (heap s) /\
    length av' = length av /\
    forall index, valid_index index (shape a) ->
      cell av' a index = fn (cell av a index).
Proof.
  intros Ha Hex. pose proof Hex as (Hn & Hb & _).
  destruct (map_loop_in_place fn (storage a) (shape a) (strides a)
              (seq 0 (prod (shape a)))
              (replicate (length (shape a)) 0, replicate (length (shape a)) 0) s av)
    as (acc' & _ & E).
  - split; simpl; apply length_replicate.
  - exact Ha.
  - rewrite <- Hn. now apply exact_layout_NoDup.
  - intros i Hi. apply elem_of_seq in Hi. split; [lia|].
    apply Hb, index_of_valid. lia.
  - eexists _, _. split; [|split; [|split]].
    + unfold SimpleOps.map. unfold mret at 1, M_ret at 1.
      rewrite (bind_ok (ret a) _ s a s eq_refl).
      erewrite bind_ok; [reflexivity|].
      rewrite tensor_map_unfold. unfold for_range.
      erewrite bind_ok by exact E. reflexivity.
    + reflexivity.
    + apply apply_writes_length.
    + intros idx Hv. rewrite apply_writes_cell by done.
      unfold out_position, cell. now rewrite index_of_position_inv.
Qed.

Lemma map_in_place_witness :
  exists s',
    SimpleOps.map operators.neg
      {| storage := 0; shape := [2; 2]; strides := [1; 2] |}
      (Some {| storage := 0; shape := [2; 2]; strides := [1; 2] |})
      (State [[1; 2; 3; 4]%float] [])
    = (inr {| storage := 0; shape := [2; 2]; strides := [1; 2] |}, s') /\
    heap s' = [[-1; -2; -3; -4]%float].
Proof.
  destruct (map_in_place operators.neg
              {| storage := 0; shape := [2; 2]; strides := [1; 2] |}
              (State [[1; 2; 3; 4]%float] []) [1; 2; 3; 4]%float)
    as (s' & av' & E & _).
  - reflexivity.
  - split; [reflexivity|]. split; [apply in_bounds_max; simpl; lia|].
    intros idx idx' Hv Hv' E.
    inversion Hv as [|i d ? ? Hi Hv1]; subst. inversion Hv1 as [|j e ? ? Hj Hv2]; subst.
    inversion Hv2; subst.
    inversion Hv' as [|i' d' ? ? Hi' Hv1']; subst.
    inversion Hv1' as [|j' e' ? ? Hj' Hv2']; subst. inversion Hv2'; subst.
    cbn in E. f_equal; [|f_equal]; lia.
  - exists s'. split; [exact E|].
    vm_compute in E. now injection E as <-.
Defined.

(** ** tensor_map when a position falls outside a storage *)

Lemma load_fails l pos s arr :
  heap s !! l = Some arr -> length arr <= pos -> load l pos s = (inl IndexError, s).
Proof.
  intros H Hp. unfold load. rewrite H.
  now rewrite (proj2 (lookup_ge_None arr pos) Hp).
Qed.

Lemma store_fails l pos v s arr :
  heap s !! l = Some arr -> length arr <= pos -> store l pos v s = (inl IndexError, s).
Proof. intros H Hp. unfold store. rewrite H. rewrite decide_False by lia. done. Qed.

Lemma map_body_fails fn out out_shape out_strides in_storage in_shape in_strides
    i acc s arr iv :
  map_buffers out_shape in_shape acc ->
  heap s !! out = Some arr ->
  heap s !! in_storage = Some iv ->
  length iv <= in_position out_shape in_shape in_strides i \/
  length arr <= out_position out_shape out_strides i ->
  map_body fn out out_shape out_strides in_storage in_shape in_strides i acc s
  = (inl IndexError, s).
Proof.
  destruct acc as [oi ii]. intros [Hoi Hii] Hout Hin Hbad. simpl in Hoi, Hii.
  unfold map_body.
  rewrite (to_index_buffer _ _ _ Hoi), (broadcast_index_buffer _ _ _ _ Hii).
  fold (out_position out_shape out_strides i).
  fold (in_position out_shape in_shape in_strides i).
  destruct (decide (in_position out_shape in_shape in_strides i < length iv)) as [Hlt|Hge].
  - destruct Hbad as [?|Hbad]; [lia|].
    rewrite (bind_ok _ _ _ _ _ (load_ok _ _ _ _ Hin Hlt)).
    erewrite bind_raise; [reflexivity|]. now apply store_fails with (arr := arr).
  - erewrite bind_raise; [reflexivity|]. apply load_fails with (arr := iv); [done|lia].
Qed.

(** X6, tensor_map stopping early: when the positions of the ordinals
    below [k] fall inside the two storages and the position read or the
    position written at ordinal [k] does not, [_map] raises IndexError at
    ordinal [k]; the writes of the ordinals [0 .. k-1] have been made and
    stay in the output storage, and no later ordinal is processed. *)
Theorem tensor_map_stops_at
    (fn : float -> float) (out : loc) (out_shape out_strides : list nat)
    (in_storage : loc) (in_shape in_strides : list nat)
    (s : state) (ov iv : list float) (k : nat) :
  out ≠ in_storage ->
  heap s !! out = Some ov ->
  heap s !! in_storage = Some iv ->
  k < prod out_shape ->
  (forall i, i < k ->
     out_position out_shape out_strides i < length ov /\
     in_position out_shape in_shape in_strides i < length iv) ->
  length iv <= in_position out_shape in_shape in_strides k \/
  length ov <= out_position out_shape out_strides k ->
  let p := out_position out_shape out_strides in
  let v i := fn (iv !!! in_position out_shape in_shape in_strides i) in
  tensor_map fn out out_shape out_strides in_storage in_shape in_strides s
  = (inl IndexError,
     State (<[out := apply_writes p v ov (seq 0 k)]> (heap s))
           (log s ++ writes_of out p v (seq 0 k))).
Proof.
  intros Hne Hout Hin Hk Hpos Hbad p v.
  rewrite tensor_map_unfold. unfold for_range.
  replace (prod out_shape) with (k + S (prod out_shape - S k)) by lia.
  rewrite seq_app. cbn [Nat.add seq].
  edestruct (for_each_stores
               (map_body fn out out_shape out_strides in_storage in_shape in_strides)
               out (heap s) (length ov) (map_buffers out_shape in_shape)
               p v (seq 0 k))
    with (acc := (replicate (length out_shape) 0, replicate (length in_shape) 0))
         (s := s) (arr := ov)
    as (acc' & Hacc & E).
  - intros i Hi. apply elem_of_seq in Hi.
    apply (map_body_stores fn out out_shape out_strides in_storage in_shape in_strides
             (heap s) iv (length ov) Hne Hin i); apply Hpos; lia.
  - split; simpl; apply length_replicate.
  - apply frame_refl.
  - exact Hout.
  - reflexivity.
  - erewrite bind_raise; [reflexivity|].
    rewrite for_each_app.
    erewrite bind_ok by exact E. rewrite for_each_cons.
    erewrite bind_raise; [reflexivity|].
    apply map_body_fails with (arr := apply_writes p v ov (seq 0 k)) (iv := iv).
    + exact Hacc.
    + cbn [heap]. apply list_lookup_insert_eq. eapply lookup_lt_Some, Hout.
    + cbn [heap]. rewrite list_lookup_insert_ne by done. exact Hin.
    + rewrite apply_writes_length. exact Hbad.
Qed.

Lemma tensor_map_stops_at_witness :
  tensor_map operators.neg 1 [2; 2] [2; 1] 0 [2; 2] [2; 1]
    (State [[1; 2; 3]; [0; 0; 0; 0]]%float [])
  = (inl IndexError,
     State [[1; 2; 3]; [-1; -2; -3; 0]]%float
           [Write_ 1 0 (-1)%float; Write_ 1 1 (-2)%float; Write_ 1 2 (-3)%float]).
Proof.
  rewrite (tensor_map_stops_at operators.neg 1 [2; 2] [2; 1] 0 [2; 2] [2; 1]
             (State [[1; 2; 3]; [0; 0; 0; 0]]%float [])
             [0; 0; 0; 0]%float [1; 2; 3]%float 3).
  - reflexivity.
  - lia.
  - reflexivity.
  - reflexivity.
  - simpl. lia.
  - intros [|[|[|i]]] Hi; try lia; vm_compute; lia.
  - left. vm_compute. lia.
Defined.

(** ** The dimension argument of reduce *)

Lemma py_index_outside n (i : Z) :
  (i < - Z.of_nat n \/ Z.of_nat n <= i)%Z -> py_index n i = None.
Proof. intros H. unfold py_index. repeat case_decide; (done || lia). Qed.

(** X7, reduce with a dimension outside the shape: for [dim >= rank] or
    [dim < -rank], [_reduce] raises IndexError before any read or write,
    and [SimpleOps.reduce] raises it before allocating the output: the
    state is left as it was. *)
Theorem reduce_rejects_dimension
    (fn : float -> float -> float) (start : float) (a : Tensor) (dim : Z)
    (out : loc) (out_shape out_strides : list nat) (s : state) :
  (dim < - Z.of_nat (length (shape a)) \/ Z.of_nat (length (shape a)) <= dim)%Z ->
  SimpleOps.reduce fn start a dim s = (inl IndexError, s) /\
  tensor_reduce fn out out_shape out_strides (storage a) (shape a) (strides a) dim s
  = (inl IndexError, s).
Proof.
  intros H. apply py_index_outside in H. split.
  - unfold SimpleOps.reduce. erewrite bind_raise; [reflexivity|].
    unfold py_set. now rewrite H.
  - rewrite tensor_reduce_unfold. erewrite bind_raise; [reflexivity|].
    unfold py_get. now rewrite H.
Qed.

Lemma reduce_rejects_dimension_witness :
  SimpleOps.reduce operators.add 0%float
    {| storage := 0; shape := [2; 3]; strides := [3; 1] |} 2
    (State [[1; 2; 3; 4; 5; 6]%float] [])
  = (inl IndexError, State [[1; 2; 3; 4; 5; 6]%float] []).
Proof.
  apply (reduce_rejects_dimension operators.add 0%float
           {| storage := 0; shape := [2; 3]; strides := [3; 1] |} 2 0 [] []
           (State [[1; 2; 3; 4; 5; 6]%float] [])).
  simpl. lia.
Defined.

Lemma reduce_fold_dim_ext fn out_index a_storage a_strides d1 d2 dim_size s :
  py_index (length out_index) d1 = py_index (length out_index) d2 ->
  reduce_fold fn out_index a_storage a_strides d1 dim_size s
  = reduce_fold fn out_index a_storage a_strides d2 dim_size s.
Proof.
  intros H. unfold reduce_fold, for_range. apply for_each_ext.
  intros k res s' _. unfold py_set. now rewrite H.
Qed.

(** [_reduce] depends on [reduce_dim] only through the position it
    denotes in the shape. *)
Lemma tensor_reduce_dim_ext fn out out_shape out_strides a_storage a_shape a_strides
    d1 d2 s :
  py_index (length a_shape) d1 = py_index (length a_shape) d2 ->
  length out_shape = length a_shape ->
  tensor_reduce fn out out_shape out_strides a_storage a_shape a_strides d1 s
  = tensor_reduce fn out out_shape out_strides a_storage a_shape a_strides d2 s.
Proof.
  intros H Hlen. rewrite !tensor_reduce_unfold.
  assert (forall s', py_get a_shape d1 s' = py_get a_shape d2 s') as Hget.
  { intros s'. unfold py_get. now rewrite H. }
  munfold. rewrite Hget.
  destruct (py_get a_shape d2 s) as [[e|ds] s1]; [done|].
  destruct (len out s1) as [[e|n] s2]; [done|].
  apply (related_discard
           (fun oi1 oi2 : list nat => oi1 = oi2 /\ length oi1 = length out_shape)).
  apply for_each_related.
  - intros i oi1 oi2 s' _ [<- Hoi]. unfold reduce_body.
    munfold.
    rewrite (reduce_fold_dim_ext fn _ a_storage a_strides d1 d2)
      by now rewrite to_index_length, Hoi, Hlen.
    destruct (reduce_fold _ _ _ _ _ _ _) as [[e|res] s3]; [done|].
    destruct (store _ _ _ _) as [[e|[]] s4]; [done|].
    split; [done|]. cbn. split; [done|]. now rewrite to_index_length.
  - split; [done|]. apply length_replicate.
Qed.

(** X8, negative dimensions: reducing along [dim = -k], for [1 <= k <=
    rank], is the same computation as reducing along [dim = rank - k]:
    same result or exception, same heap. *)
Theorem reduce_negative_dimension
    (fn : float -> float -> float) (start : float) (a : Tensor) (k : nat) (s : state) :
  1 <= k <= length (shape a) ->
  SimpleOps.reduce fn start a (- Z.of_nat k) s
  = SimpleOps.reduce fn start a (Z.of_nat (length (shape a) - k)) s.
Proof.
  intros Hk.
  assert (forall n, n = length (shape a) ->
            py_index n (- Z.of_nat k) = py_index n (Z.of_nat (n - k))) as Hidx.
  { intros n ->. unfold py_index.
    rewrite decide_False by lia. rewrite decide_True by lia.
    rewrite decide_True by lia. f_equal. lia. }
  unfold SimpleOps.reduce, py_set. rewrite (Hidx _ eq_refl).
  destruct (py_index _ _) as [d|] eqn:Hd; [|done].
  munfold. rewrite zeros_run. cbn [storage shape strides].
  destruct (fill _ _ _) as [[e|[]] s1]; [done|].
  rewrite (tensor_reduce_dim_ext fn _ _ _ _ _ _ (- Z.of_nat k)
             (Z.of_nat (length (shape a) - k))); [done| |apply length_insert].
  now apply Hidx.
Qed.

Lemma reduce_negative_dimension_witness :
  SimpleOps.reduce operators.add 0%float
    {| storage := 0; shape := [2; 3]; strides := [3; 1] |} (-1)
    (State [[1; 2; 3; 4; 5; 6]%float] [])
  = SimpleOps.reduce operators.add 0%float
      {| storage := 0; shape := [2; 3]; strides := [3; 1] |} 1
      (State [[1; 2; 3; 4; 5; 6]%float] []).
Proof.
  apply (reduce_negative_dimension operators.add 0%float
           {| storage := 0; shape := [2; 3]; strides := [3; 1] |} 1
           (State [[1; 2; 3; 4; 5; 6]%float] [])).
  simpl. lia.
Defined.

(** ** Reducing an empty or a singleton dimension *)

Lemma fmap_const_seq {A} (x : A) j n : (fun _ : nat => x) <$> seq j n = replicate n x.
Proof. revert j. induction n as [|n IH]; intros j; [done|]. cbn. now rewrite IH. Qed.

(** X9, reduce along an empty dimension: when the reduced dimension has
    extent 0, [SimpleOps.reduce] returns a tensor every cell of which holds
    the NaN left by storing [None], whatever [fn] and [start] are; neither
    is used. *)
Theorem reduce_empty_dimension
    (a : Tensor) (dim : Z) (d : nat) (s : state) (av : list float) :
  tensor_in s a av ->
  py_index (length (shape a)) dim = Some d ->
  shape a !! d = Some 0 ->
  exists out s',
    (forall fn start, SimpleOps.reduce fn start a dim s = (inr out, s')) /\
    shape out = <[d := 1]> (shape a) /\
    heap s' !! storage out
    = Some (replicate (prod (<[d := 1]> (shape a))) None_as_float64) /\
    PrimFloat.is_nan None_as_float64 = true.
Proof.
  intros Ha Hd Hds.
  pose proof (fun fn start => SimpleOps_reduce_run fn start a dim d 0 s av Ha Hd Hds) as E.
  cbn [seq reduce_elems fmap list_fmap reduce_value] in E.
  unfold reduce_elems in E. cbn [seq fmap list_fmap reduce_value] in E.
  eexists _, _. split; [|split; [|split]].
  - intros fn start. rewrite (E fn start). unfold writes_of. reflexivity.
  - reflexivity.
  - cbn [storage heap]. rewrite list_lookup_middle by done.
    now rewrite fmap_const_seq.
  - reflexivity.
Qed.

Lemma reduce_empty_dimension_witness :
  exists out s',
    SimpleOps.reduce operators.mul 1%float
      {| storage := 0; shape := [2; 0]; strides := [0; 1] |} 1 (State [[]] [])
    = (inr out, s') /\
    heap s' !! storage out = Some [None_as_float64; None_as_float64].
Proof.
  destruct (reduce_empty_dimension
              {| storage := 0; shape := [2; 0]; strides := [0; 1] |} 1 1
              (State [[]] []) [])
    as (out & s' & E & _ & Ho & _).
  - split; [reflexivity|]. intros idx Hv.
    inversion Hv as [|i d ? ? Hi Hv1]; subst. inversion Hv1 as [|j e ? ? Hj Hv2]; subst.
    lia.
  - reflexivity.
  - reflexivity.
  - exists out, s'. split; [apply E|exact Ho].
Defined.

(** X10, reduce along a dimension of extent 1: the result has the shape of
    [a] and at every index the value [a] has there; [fn] is not applied
    and [start] is not used. *)
Theorem reduce_singleton_dimension
    (a : Tensor) (dim : Z) (d : nat) (s : state) (av : list float) :
  tensor_in s a av ->
  py_index (length (shape a)) dim = Some d ->
  shape a !! d = Some 1 ->
  exists out s' ov,
    (forall fn start, SimpleOps.reduce fn start a dim s = (inr out, s')) /\
    shape out = shape a /\
    heap s' !! storage out = Some ov /\
    forall index, valid_index index (shape a) -> cell ov out index = cell av a index.
Proof.
  intros Ha Hd Hds.
  pose proof (fun fn start => SimpleOps_reduce_run fn start a dim d 1 s av Ha Hd Hds) as E.
  unfold reduce_elems in E. cbn [seq fmap list_fmap reduce_value foldl] in E.
  rewrite (list_insert_id _ _ _ Hds) in E.
  eexists _, _, _. split; [|split; [|split]].
  - intros fn start. rewrite (E fn start). unfold writes_of. reflexivity.
  - reflexivity.
  - cbn [storage heap]. now apply list_lookup_middle.
  - intros idx Hv.
    rewrite (cell_row_major _
               {| storage := length (heap s); shape := shape a;
                  strides := strides_from_shape (shape a) |}
               (shape a) idx eq_refl Hv).
    rewrite index_of_position_inv by done. unfold cell. f_equal. f_equal.
    apply list_insert_id.
    destruct (Forall2_lookup_r _ _ _ _ _ Hv Hds) as (x & Hx & Hlt).
    rewrite Hx. f_equal. lia.
Qed.

Lemma reduce_singleton_dimension_witness :
  exists out s',
    SimpleOps.reduce operators.add 0%float
      {| storage := 0; shape := [1; 3]; strides := [3; 1] |} 0
      (State [[1; 2; 3]%float] [])
    = (inr out, s') /\
    heap s' !! storage out = Some [1; 2; 3]%float.
Proof.
  destruct (reduce_singleton_dimension
              {| storage := 0; shape := [1; 3]; strides := [3; 1] |} 0 0
              (State [[1; 2; 3]%float] []) [1; 2; 3]%float)
    as (out & s' & ov & E & _ & Ho & _).
  - split; [reflexivity|]. apply in_bounds_max. simpl. lia.
  - reflexivity.
  - reflexivity.
  - exists out, s'. split; [apply E|].
    specialize (E operators.add 0%float). vm_compute in E. now injection E as <- <-.
Defined.

(** ** SimpleOps.zip *)

(** What [SimpleOps.zip(fn)(a, b)] returns once the output shape [c] is
    known, for operands of the rank of [c] that broadcast to it. *)
Lemma SimpleOps_zip_run fn a b c s av bv :
  tensor_in s a av -> tensor_in s b bv ->
  (if bool_decide (shape a ≠ shape b)
   then shape_broadcast (shape a) (shape b) else mret (shape a)) s = (inr c, s) ->
  length (shape a) = length c -> length (shape b) = length c ->
  broadcasts_to (shape a) c -> broadcasts_to (shape b) c ->
  let v i := fn (av !!! in_position c (shape a) (strides a) i)
                (bv !!! in_position c (shape b) (strides b) i) in
  SimpleOps.zip fn a b s
  = (inr {| storage := length (heap s); shape := c; strides := strides_from_shape c |},
     State (heap s ++ [v <$> seq 0 (prod c)])
           (log s ++ writes_of (length (heap s)) (fun i => i) v (seq 0 (prod c)))).
Proof.
  intros [Ha Hba] [Hb Hbb] Hc Hra Hrb Hbra Hbrb v. unfold SimpleOps.zip.
  rewrite (bind_ok _ _ _ _ _ Hc).
  rewrite (bind_ok _ _ _ _ _ (zeros_run c s)). cbn [storage shape strides].
  set (l := length (heap s)). set (n := prod c).
  assert (storage a < l) as Hlta by (eapply lookup_lt_Some, Ha).
  assert (storage b < l) as Hltb by (eapply lookup_lt_Some, Hb).
  erewrite bind_ok; cycle 1.
  { apply tensor_zip_run with (ov := replicate n 0%float) (av := av) (bv := bv);
      try done.
    - unfold l. lia.
    - unfold l. lia.
    - cbn [heap]. unfold l. now apply list_lookup_middle.
    - cbn [heap]. rewrite lookup_app_l by done. exact Ha.
    - cbn [heap]. rewrite lookup_app_l by done. exact Hb.
    - intros i Hi. rewrite length_replicate.
      pose proof (in_bounds_row_major c) as Hbo.
      destruct (map_positions c (strides_from_shape c) (shape a) (strides a) _ _
                  Hbra Hbo Hba i Hi) as [? ?].
      destruct (map_positions c (strides_from_shape c) (shape b) (strides b) _ _
                  Hbrb Hbo Hbb i Hi) as [_ ?].
      done. }
  cbn [heap log]. unfold mret, M_ret, ret. f_equal. f_equal.
  - unfold l. rewrite heap_alloc_insert. f_equal. f_equal.
    apply apply_writes_all; [apply length_replicate|].
    intros i Hi. split; [now apply out_position_row_major|done].
  - f_equal. apply writes_of_ext.
    intros i Hi. apply elem_of_seq in Hi. split; [|done].
    apply out_position_row_major. unfold n. lia.
Qed.

(** X11, SimpleOps.zip on equal shapes: for two tensors of the same shape,
    with any strides, the call returns a new row-major tensor of that shape
    whose cell at every index is [fn] of the cells of [a] and [b] there;
    the arrays that existed are unchanged. *)
Theorem zip_equal_shapes (fn : float -> float -> float) (a b : Tensor) (s : state)
    (av bv : list float) :
  tensor_in s a av -> tensor_in s b bv ->
  shape a = shape b ->
  exists out s' ov,
    SimpleOps.zip fn a b s = (inr out, s') /\
    shape out = shape a /\
    strides out = strides_from_shape (shape a) /\
    heap s' = heap s ++ [ov] /\ storage out = length (heap s) /\
    forall index, valid_index index (shape a) ->
      cell ov out index = fn (cell av a index) (cell bv b index).
Proof.
  intros Ha Hb E.
  pose proof (SimpleOps_zip_run fn a b (shape a) s av bv Ha Hb) as R.
  rewrite bool_decide_eq_false_2 in R by (intros H; now apply H).
  assert (broadcasts_to (shape b) (shape a)) as Hbb
    by (rewrite <- E; apply broadcasts_to_refl).
  specialize (R eq_refl eq_refl (f_equal length (eq_sym E)) (broadcasts_to_refl _) Hbb).
  cbv zeta in R.
  eexists _, _, _. split; [exact R|]. cbn [shape strides storage heap].
  repeat split.
  intros idx Hv.
  rewrite (cell_row_major _
             {| storage := length (heap s); shape := shape a;
                strides := strides_from_shape (shape a) |} (shape a) idx eq_refl Hv).
  unfold in_position, cell. rewrite index_of_position_inv by done.
  rewrite bcast_of_same by done.
  f_equal. f_equal. f_equal. rewrite <- E. now apply bcast_of_same.
Qed.

Lemma zip_equal_shapes_witness :
  exists out s',
    SimpleOps.zip operators.mul
      {| storage := 0; shape := [2; 2]; strides := [2; 1] |}
      {| storage := 0; shape := [2; 2]; strides := [1; 2] |}
      (State [[1; 2; 3; 4]%float] []) = (inr out, s') /\
    heap s' = [[1; 2; 3; 4]; [1; 6; 6; 16]]%float.
Proof.
  destruct (zip_equal_shapes operators.mul
              {| storage := 0; shape := [2; 2]; strides := [2; 1] |}
              {| storage := 0; shape := [2; 2]; strides := [1; 2] |}
              (State [[1; 2; 3; 4]%float] []) [1; 2; 3; 4]%float [1; 2; 3; 4]%float)
    as (out & s' & ov & E & _).
  - split; [reflexivity|]. apply in_bounds_max. simpl. lia.
  - split; [reflexivity|]. apply in_bounds_max. simpl. lia.
  - reflexivity.
  - exists out, s'. split; [exact E|].
    vm_compute in E. now injection E as <- <-.
Defined.








(** ** Exchanging the operands of zip *)

(** X13, zip with the operands exchanged: for any [fn], [zip(fn)(a, b)] is
    the same computation as [zip(fn')(b, a)] with [fn'(y, x) = fn(x, y)]:
    same result or exception, same heap, same trace of writes; so is
    [_zip] on exchanged operand triples. *)
Theorem zip_exchange_operands
    (fn : float -> float -> float) (a b : Tensor) (s : state)
    (out : loc) (out_shape out_strides : list nat) :
  SimpleOps.zip fn a b s = SimpleOps.zip (fun y x => fn x y) b a s /\
  tensor_zip fn out out_shape out_strides
    (storage a) (shape a) (strides a) (storage b) (shape b) (strides b) s
  = tensor_zip (fun y x => fn x y) out out_shape out_strides
      (storage b) (shape b) (strides b) (storage a) (shape a) (strides a) s.
Proof.
  split.
  - now apply SimpleOps_zip_swap.
  - now apply tensor_zip_swap.
Qed.

Lemma SFmul_comm prec emax x y : SFmul prec emax x y = SFmul prec emax y x.
Proof.
  destruct x as [sx|sx| |sx mx ex], y as [sy|sy| |sy my ey]; try reflexivity;
    cbn [SFmul]; rewrite ?(xorb_comm sx sy); try reflexivity.
  now rewrite Pos.mul_comm, Z.add_comm.
Qed.

Lemma float_mul_comm (x y : float) : (x * y)%float = (y * x)%float.
Proof. apply Prim2SF_inj. rewrite !mul_spec. apply SFmul_comm. Qed.

(** X14, zip with multiplication: [mul_zip(a, b)] and [mul_zip(b, a)] end
    the same way, return the same tensor and leave the same heap, for all
    tensors. *)
Theorem mul_zip_commutes (o : operators.others) (a b : Tensor) (s : state) :
  TensorBackend.mul_zip (SimpleBackend o) a b s
  = TensorBackend.mul_zip (SimpleBackend o) b a s.
Proof.
  cbn [SimpleBackend TensorBackend.init TensorBackend.mul_zip TensorOps.zip SimpleOps.ops].
  apply SimpleOps_zip_swap. intros x y. apply float_mul_comm.
Qed.

(** ** What the procedures never touch *)

Lemma only_writes_refl out s : only_writes out s s.
Proof.
  repeat split. exists []. split; [now rewrite app_nil_r|constructor].
Qed.

Lemma only_writes_trans out s1 s2 s3 :
  only_writes out s1 s2 -> only_writes out s2 s3 -> only_writes out s1 s3.
Proof.
  intros (Hl & Hf & Ho & ws & Hw & Hws) (Hl' & Hf' & Ho' & ws' & Hw' & Hws').
  split; [congruence|]. split; [|split].
  - intros l Hne. rewrite Hf', Hf; auto.
  - congruence.
  - exists (ws ++ ws'). split; [now rewrite Hw', Hw, app_assoc|].
    now apply Forall_app.
Qed.

Lemma touches_only_unchanged {A} out (m : M A) :
  (forall s, snd (m s) = s) -> touches_only out m.
Proof. intros H s. rewrite H. apply only_writes_refl. Qed.

Lemma touches_only_bind {A B} out (m : M A) (k : A -> M B) :
  touches_only out m -> (forall x, touches_only out (k x)) ->
  touches_only out (m ≫= k).
Proof.
  intros Hm Hk s. specialize (Hm s). munfold.
  destruct (m s) as [[e|x] s1]; cbn [snd] in *; [done|].
  eapply only_writes_trans; [exact Hm|apply Hk].
Qed.

Lemma touches_only_for_each {S} out (body : nat -> S -> M S) l :
  (forall i acc, touches_only out (body i acc)) ->
  forall acc, touches_only out (for_each l body acc).
Proof.
  intros Hb. induction l as [|i l IH]; intros acc.
  - now apply touches_only_unchanged.
  - rewrite for_each_cons. apply touches_only_bind; [apply Hb|apply IH].
Qed.

Lemma touches_only_load out l pos : touches_only out (load l pos).
Proof. apply touches_only_unchanged. intros s. now rewrite load_peek. Qed.

Lemma touches_only_store out pos v : touches_only out (store out pos v).
Proof.
  intros s. unfold store. destruct (heap s !! out) as [arr|] eqn:Ho;
    [|apply only_writes_refl].
  case_decide; [|apply only_writes_refl]. cbn [snd].
  pose proof (lookup_lt_Some _ _ _ Ho) as Hlt.
  split; [apply length_insert|]. split; [|split].
  - intros l Hne. now apply list_lookup_insert_ne.
  - cbn [heap]. rewrite list_lookup_insert_eq, Ho by done. cbn.
    now rewrite length_insert.
  - exists [Write_ out pos v]. split; [done|]. now repeat constructor.
Qed.

Lemma touches_only_pure {A} out (m : M A) r : pure_with m r -> touches_only out m.
Proof. intros H. apply touches_only_unchanged. intros s. now rewrite H. Qed.

Lemma touches_only_py_get {A} out (l : list A) i : touches_only out (py_get l i).
Proof.
  apply touches_only_unchanged. intros s. unfold py_get.
  destruct (py_index _ _); [|done]. now destruct (l !! _).
Qed.

Lemma touches_only_py_set {A} out (l : list A) i x : touches_only out (py_set l i x).
Proof.
  apply touches_only_unchanged. intros s. unfold py_set. now destruct (py_index _ _).
Qed.

Lemma touches_only_len out l : touches_only out (len l).
Proof.
  apply touches_only_unchanged. intros s. unfold len. now destruct (heap s !! l).
Qed.

Lemma touches_only_ret {A} out (x : A) : touches_only out (mret x).
Proof. now apply touches_only_unchanged. Qed.

Lemma touches_only_tensor_map fn out out_shape out_strides in_storage in_shape in_strides :
  touches_only out
    (tensor_map fn out out_shape out_strides in_storage in_shape in_strides).
Proof.
  rewrite tensor_map_unfold. apply touches_only_bind; [|intros; apply touches_only_ret].
  apply touches_only_for_each. intros i [oi ii]. unfold map_body.
  apply touches_only_bind; [apply touches_only_load|]. intros x.
  apply touches_only_bind; [apply touches_only_store|]. intros _.
  apply touches_only_ret.
Qed.

Lemma touches_only_tensor_zip fn out out_shape out_strides
    a_storage a_shape a_strides b_storage b_shape b_strides :
  touches_only out
    (tensor_zip fn out out_shape out_strides
       a_storage a_shape a_strides b_storage b_shape b_strides).
Proof.
  unfold tensor_zip. destruct (_ && _).
  - rewrite tensor_zip_fast_unfold. apply touches_only_for_each.
    intros i []. unfold zip_fast_body.
    apply touches_only_bind; [apply touches_only_load|]. intros x.
    apply touches_only_bind; [apply touches_only_load|]. intros y.
    apply touches_only_store.
  - rewrite tensor_zip_general_unfold.
    apply touches_only_bind; [|intros; apply touches_only_ret].
    apply touches_only_for_each. intros i [[oi ai] bi]. unfold zip_general_body.
    destruct (zip_index_pure a_shape (to_index i out_shape oi) ai) as [ra Hra].
    apply touches_only_bind; [apply (touches_only_pure _ _ _ Hra)|]. intros ai'.
    destruct (zip_index_pure b_shape (to_index i out_shape oi) bi) as [rb Hrb].
    apply touches_only_bind; [apply (touches_only_pure _ _ _ Hrb)|]. intros bi'.
    apply touches_only_bind; [apply touches_only_load|]. intros x.
    apply touches_only_bind; [apply touches_only_load|]. intros y.
    apply touches_only_bind; [apply touches_only_store|]. intros _.
    apply touches_only_ret.
Qed.

Lemma touches_only_tensor_reduce fn out out_shape out_strides
    a_storage a_shape a_strides reduce_dim :
  touches_only out
    (tensor_reduce fn out out_shape out_strides a_storage a_shape a_strides reduce_dim).
Proof.
  rewrite tensor_reduce_unfold.
  apply touches_only_bind; [apply touches_only_py_get|]. intros ds.
  apply touches_only_bind; [apply touches_only_len|]. intros n.
  apply touches_only_bind; [|intros; apply touches_only_ret].
  apply touches_only_for_each. intros i oi. unfold reduce_body.
  apply touches_only_bind.
  - unfold reduce_fold, for_range. apply touches_only_for_each. intros k res.
    apply touches_only_bind; [apply touches_only_py_set|]. intros ai.
    apply touches_only_bind; [apply touches_only_load|]. intros x.
    destruct res; apply touches_only_ret.
  - intros res. apply touches_only_bind; [apply touches_only_store|]. intros _.
    apply touches_only_ret.
Qed.

(** X15, frame of every call: whatever the arguments and the state, and
    whether the call returns or raises part-way, a call of [_map], [_zip]
    or [_reduce] allocates nothing, leaves every storage other than its
    output as it was, keeps the length of the output storage and makes
    element writes to the output only. *)
Theorem invocation_frame (c : invocation) (s : state) :
  only_writes (output_of c) s (snd (invoke c s)).
Proof.
  destruct c; cbn [invoke output_of].
  - apply touches_only_tensor_map.
  - apply touches_only_tensor_zip.
  - apply touches_only_tensor_reduce.
Qed.

Lemma keeps_heap_refl s : keeps_heap s s.
Proof. now intros l Hl. Qed.

(** A computation that only touches the array allocated last keeps the
    arrays that were there before. *)
Lemma keeps_heap_fresh {A} (m : M A) s arr lg :
  touches_only (length (heap s)) m ->
  keeps_heap s (snd (m (State (heap s ++ [arr]) lg))).
Proof.
  intros H l Hl. destruct (H (State (heap s ++ [arr]) lg)) as (_ & Hf & _).
  rewrite Hf by lia. cbn [heap]. now apply lookup_app_l.
Qed.

Lemma touches_only_fill out v : touches_only out (fill out v).
Proof.
  intros s. unfold fill. destruct (heap s !! out) as [arr|] eqn:Ho;
    [|apply only_writes_refl]. cbn [snd].
  pose proof (lookup_lt_Some _ _ _ Ho) as Hlt.
  split; [apply length_insert|]. split; [|split].
  - intros l Hne. now apply list_lookup_insert_ne.
  - cbn [heap]. rewrite list_lookup_insert_eq, Ho by done. cbn.
    now rewrite length_replicate.
  - exists []. split; [cbn; now rewrite app_nil_r|constructor].
Qed.

(** X16, the wrappers and the storages that exist: whatever the operands
    and whether the call returns or raises, [SimpleOps.map] without [out],
    [SimpleOps.zip] and [SimpleOps.reduce] leave every storage that existed
    before the call as it was; they only write to the output they
    allocate. *)
Theorem wrappers_keep_existing_storages
    (f : float -> float) (fn : float -> float -> float) (start : float)
    (a b : Tensor) (dim : Z) (s : state) :
  keeps_heap s (snd (SimpleOps.map f a None s)) /\
  keeps_heap s (snd (SimpleOps.zip fn a b s)) /\
  keeps_heap s (snd (SimpleOps.reduce fn start a dim s)).
Proof.
  split; [|split].
  - unfold SimpleOps.map. munfold. rewrite zeros_run. cbn [storage shape strides].
    pose proof (keeps_heap_fresh
                  (tensor_map f (length (heap s)) (shape a)
                     (strides_from_shape (shape a)) (storage a) (shape a) (strides a))
                  s (replicate (prod (shape a)) 0%float) (log s)
                  (touches_only_tensor_map _ _ _ _ _ _ _)) as H.
    destruct (tensor_map _ _ _ _ _ _ _ _) as [[e|[]] s']; exact H.
  - unfold SimpleOps.zip. munfold.
    assert (forall m : M (list nat),
              (forall s0, snd (m s0) = s0) ->
              keeps_heap s
                (snd (let (r, s') := m s in
                      match r with
                      | inl e => (inl e, s')
                      | inr c =>
                          let (r0, s'0) := zeros c s' in
                          match r0 with
                          | inl e => (inl e, s'0)
                          | inr out =>
                              let (r1, s'1) :=
                                tensor_zip fn (storage out) (shape out) (strides out)
                                  (storage a) (shape a) (strides a)
                                  (storage b) (shape b) (strides b) s'0 in
                              match r1 with
                              | inl e => (inl e, s'1)
                              | inr _ => (inr out, s'1)
                              end
                          end
                      end))) as Hgen.
    { intros m Hm. specialize (Hm s). destruct (m s) as [[e|c] s1]; cbn [snd] in Hm;
        subst s1; [apply keeps_heap_refl|].
      rewrite zeros_run. cbn [storage shape strides].
      pose proof (keeps_heap_fresh
                    (tensor_zip fn (length (heap s)) c (strides_from_shape c)
                       (storage a) (shape a) (strides a)
                       (storage b) (shape b) (strides b))
                    s (replicate (prod c) 0%float) (log s)
                    (touches_only_tensor_zip _ _ _ _ _ _ _ _ _ _)) as H.
      destruct (tensor_zip _ _ _ _ _ _ _ _ _ _ _) as [[e|[]] s']; exact H. }
    apply Hgen. intros s0. case_bool_decide; [|done].
    unfold shape_broadcast. now destruct (broadcast_rev _ _).
  - unfold SimpleOps.reduce, py_set.
    destruct (py_index _ _) as [d|]; [|apply keeps_heap_refl].
    munfold. rewrite zeros_run. cbn [storage shape strides].
    set (sh := <[d := 1]> (shape a)).
    pose proof (keeps_heap_fresh
                  (_ ← fill (length (heap s)) start;
                   tensor_reduce fn (length (heap s)) sh (strides_from_shape sh)
                     (storage a) (shape a) (strides a) dim)
                  s (replicate (prod sh) 0%float) (log s)) as H.
    munfold.
    destruct (fill _ _ _) as [[e|[]] s1].
    + apply H. apply touches_only_bind;
        [apply touches_only_fill|intros; apply touches_only_tensor_reduce].
    + destruct (tensor_reduce _ _ _ _ _ _ _ _ _) as [[e|[]] s2];
        apply H; (apply touches_only_bind;
          [apply touches_only_fill|intros; apply touches_only_tensor_reduce]).
Qed.

(** ** Operands of lower rank in zip *)

Lemma lead_index_length sh oi : length (lead_index sh oi) = length sh.
Proof. apply length_imap. Qed.

(** The inlined index loop of [_zip], for an operand of any rank up to the
    rank of the output. *)
Lemma zip_index_leading sh out_index index s :
  length index = length sh ->
  length sh <= length out_index ->
  zip_index sh out_index index s = (inr (lead_index sh out_index), s).
Proof.
  intros Hidx Hoi. unfold zip_index, for_range.
  set (target := lead_index sh out_index).
  pose proof (lead_index_length sh out_index) as Htl. fold target in Htl.
  enough (forall k, k <= length sh ->
            for_each (seq 0 k)
              (fun i index =>
                 s0 ← get_item sh i;
                 if decide (s0 = 1) then set_item index i 0
                 else (v ← get_item out_index i; set_item index i v)) index s
            = (inr (take k target ++ drop k index), s)) as H.
  { rewrite H by done. rewrite take_ge, drop_ge by lia. now rewrite app_nil_r. }
  induction k as [|k IH]; intros Hk.
  - now rewrite drop_0.
  - rewrite seq_S, for_each_app. erewrite bind_ok by (apply IH; lia).
    cbn [Nat.add]. rewrite for_each_cons.
    destruct (lookup_lt_is_Some_2 sh k) as [d Hd]; [lia|].
    destruct (lookup_lt_is_Some_2 out_index k) as [v Hv]; [lia|].
    assert (target !! k = Some (if decide (d = 1) then 0 else v)) as Ht.
    { unfold target, lead_index. rewrite list_lookup_imap, Hd. cbn.
      now rewrite Hv. }
    assert (k < length (take k target ++ drop k index)) as Hlen.
    { rewrite length_app, length_take, length_drop. lia. }
    erewrite bind_ok; [reflexivity|].
    unfold get_item, set_item. rewrite Hd. munfold.
    destruct (decide (d = 1)) as [_|_].
    + rewrite decide_True by done.
      now rewrite <- insert_take_drop with (x := 0) by (done || lia).
    + rewrite Hv. rewrite decide_True by done.
      now rewrite <- insert_take_drop with (x := v) by (done || lia).
Qed.

(** For an operand of the rank of the output this is the broadcast of the
    output index. *)
Lemma lead_index_same_rank sh big oi :
  length sh = length big -> lead_index sh oi = bcast_of oi big sh.
Proof.
  intros H. rewrite bcast_of_imap. unfold lead_index.
  apply imap_ext. intros i d _. now rewrite H, Nat.sub_diag, Nat.add_0_r.
Qed.

Section ZipLeading.

Context (fn : float -> float -> float).
Context (out : loc) (out_shape out_strides : list nat).
Context (a_storage : loc) (a_shape a_strides : list nat).
Context (b_storage : loc) (b_shape b_strides : list nat).
Context (h0 : list (list float)) (av bv : list float) (n : nat).
Hypothesis Hout_a : out ≠ a_storage.
Hypothesis Hout_b : out ≠ b_storage.
Hypothesis Ha : h0 !! a_storage = Some av.
Hypothesis Hb : h0 !! b_storage = Some bv.
Hypothesis Hrank_a : length a_shape <= length out_shape.
Hypothesis Hrank_b : length b_shape <= length out_shape.

Lemma zip_general_body_leading i :
  out_position out_shape out_strides i < n ->
  lead_position out_shape a_shape a_strides i < length av ->
  lead_position out_shape b_shape b_strides i < length bv ->
  stores_at (zip_general_body fn out out_shape out_strides
               a_storage a_shape a_strides b_storage b_shape b_strides)
    out h0 n (general_buffers out_shape a_shape b_shape)
    (out_position out_shape out_strides)
    (fun i => fn (av !!! lead_position out_shape a_shape a_strides i)
                 (bv !!! lead_position out_shape b_shape b_strides i)) i.
Proof.
  intros Ho Hpa Hpb [[oi ai] bi] s arr (Hoi & Hai & Hbi) [Hlen Hfr] Hout Harr.
  exists (index_of i out_shape, lead_index a_shape (index_of i out_shape),
          lead_index b_shape (index_of i out_shape)).
  split.
  { repeat split; [apply index_of_length|apply lead_index_length..]. }
  unfold zip_general_body. rewrite (to_index_buffer _ _ _ Hoi).
  pose proof (index_of_length i out_shape) as Hl.
  erewrite (bind_ok (zip_index a_shape _ ai));
    [|apply zip_index_leading; (done || lia)].
  erewrite (bind_ok (zip_index b_shape _ bi));
    [|apply zip_index_leading; (done || lia)].
  fold (out_position out_shape out_strides i).
  fold (lead_position out_shape a_shape a_strides i).
  fold (lead_position out_shape b_shape b_strides i).
  assert (heap s !! a_storage = Some av) as Hsa by (rewrite Hfr; auto).
  assert (heap s !! b_storage = Some bv) as Hsb by (rewrite Hfr; auto).
  rewrite (bind_ok _ _ _ _ _ (load_ok _ _ _ _ Hsa Hpa)).
  rewrite (bind_ok _ _ _ _ _ (load_ok _ _ _ _ Hsb Hpb)).
  erewrite bind_ok; [reflexivity|].
  apply store_ok; [done|lia].
Qed.

End ZipLeading.

Lemma tensor_zip_general_leading fn out out_shape out_strides
    a_storage a_shape a_strides b_storage b_shape b_strides s ov av bv :
  out ≠ a_storage -> out ≠ b_storage ->
  heap s !! out = Some ov ->
  heap s !! a_storage = Some av ->
  heap s !! b_storage = Some bv ->
  length a_shape <= length out_shape ->
  length b_shape <= length out_shape ->
  (forall i, i < prod out_shape ->
     out_position out_shape out_strides i < length ov /\
     lead_position out_shape a_shape a_strides i < length av /\
     lead_position out_shape b_shape b_strides i < length bv) ->
  let p := out_position out_shape out_strides in
  let v i := fn (av !!! lead_position out_shape a_shape a_strides i)
                (bv !!! lead_position out_shape b_shape b_strides i) in
  tensor_zip_general fn out out_shape out_strides
    a_storage a_shape a_strides b_storage b_shape b_strides s
  = (inr tt, State (<[out := apply_writes p v ov (seq 0 (prod out_shape))]> (heap s))
                   (log s ++ writes_of out p v (seq 0 (prod out_shape)))).
Proof.
  intros Hna Hnb Hout Ha Hb Hra Hrb Hpos p v.
  rewrite tensor_zip_general_unfold. unfold for_range.
  edestruct (for_each_stores
               (zip_general_body fn out out_shape out_strides
                  a_storage a_shape a_strides b_storage b_shape b_strides)
               out (heap s) (length ov) (general_buffers out_shape a_shape b_shape)
               p v (seq 0 (prod out_shape)))
    with (acc := (replicate (length out_shape) 0, replicate (length a_shape) 0,
                  replicate (length b_shape) 0))
         (s := s) (arr := ov)
    as (acc' & _ & E).
  - intros i Hi. apply elem_of_seq in Hi.
    apply (zip_general_body_leading fn out out_shape out_strides
             a_storage a_shape a_strides b_storage b_shape b_strides
             (heap s) av bv (length ov) Hna Hnb Ha Hb Hra Hrb i); apply Hpos; lia.
  - repeat split; apply length_replicate.
  - apply frame_refl.
  - exact Hout.
  - reflexivity.
  - erewrite bind_ok by exact E. reflexivity.
Qed.

(** X17, operands of lower rank in [_zip]: for operands whose rank is at
    most the rank of the output, [_zip] reads each operand at the index
    whose component [i] is component [i] of the output index (0 where the
    operand has extent 1): a lower-rank operand is aligned with the leading
    dimensions of the output, not the trailing ones.  When those positions
    fall inside the storages the call returns and stores [fn] of the two
    cells read at every ordinal. *)
Theorem tensor_zip_aligns_leading
    (fn : float -> float -> float) (out : loc) (out_shape out_strides : list nat)
    (a_storage : loc) (a_shape a_strides : list nat)
    (b_storage : loc) (b_shape b_strides : list nat)
    (s : state) (ov av bv : list float) :
  out ≠ a_storage -> out ≠ b_storage ->
  heap s !! out = Some ov ->
  heap s !! a_storage = Some av ->
  heap s !! b_storage = Some bv ->
  length a_shape <= length out_shape ->
  length b_shape <= length out_shape ->
  (forall i, i < prod out_shape ->
     out_position out_shape out_strides i < length ov /\
     lead_position out_shape a_shape a_strides i < length av /\
     lead_position out_shape b_shape b_strides i < length bv) ->
  let p := out_position out_shape out_strides in
  let v i := fn (av !!! lead_position out_shape a_shape a_strides i)
                (bv !!! lead_position out_shape b_shape b_strides i) in
  tensor_zip fn out out_shape out_strides
    a_storage a_shape a_strides b_storage b_shape b_strides s
  = (inr tt, State (<[out := apply_writes p v ov (seq 0 (prod out_shape))]> (heap s))
                   (log s ++ writes_of out p v (seq 0 (prod out_shape)))).
Proof.
  intros Hna Hnb Hout Ha Hb Hra Hrb Hpos p v. unfold tensor_zip.
  destruct (bool_decide (a_shape = b_shape) && bool_decide (a_shape = out_shape)
            && bool_decide (b_shape = out_shape)) eqn:Hc.
  - apply andb_prop in Hc as [Hc Hbo]. apply andb_prop in Hc as [_ Hao].
    apply bool_decide_eq_true_1 in Hbo, Hao. subst a_shape b_shape.
    rewrite zip_fast_general. now apply tensor_zip_general_leading.
  - now apply tensor_zip_general_leading.
Qed.

Lemma tensor_zip_aligns_leading_witness :
  exists s',
    tensor_zip operators.add 2 [2; 3] [3; 1] 0 [2; 3] [3; 1] 1 [3] [1]
      (State [[1; 2; 3; 4; 5; 6]; [10; 20; 30]; [0; 0; 0; 0; 0; 0]]%float [])
    = (inr tt, s') /\
    heap s' !! 2 = Some [11; 12; 13; 24; 25; 26]%float.
Proof.
  eexists. split.
  - apply (tensor_zip_aligns_leading operators.add 2 [2; 3] [3; 1] 0 [2; 3] [3; 1] 1 [3] [1]
             (State [[1; 2; 3; 4; 5; 6]; [10; 20; 30]; [0; 0; 0; 0; 0; 0]]%float [])
             [0; 0; 0; 0; 0; 0]%float [1; 2; 3; 4; 5; 6]%float [10; 20; 30]%float).
    + lia.
    + lia.
    + reflexivity.
    + reflexivity.
    + reflexivity.
    + simpl. lia.
    + simpl. lia.
    + intros [|[|[|[|[|[|i]]]]]] Hi; try (simpl in Hi; lia); vm_compute; lia.
  - reflexivity.
Defined.
